(** * A shallow embedding of the BuildStream job scheduler core

    Sources embedded here:
    - src/src/buildstream/_scheduler/scheduler.py   (Scheduler, SchedStatus)
    - src/src/buildstream/_cas/casdprocessmanager.py (CASDProcessManager, CASDChannel)
    - src/buildstream/plugin.py                      (plugin registry)

    Everything the Python code gets from the outside world (queue objects,
    job objects, the clock, the file system, the casd child process) is an
    oracle over an abstract world [W]; the scheduler records every call it
    makes on those objects in an event trace, so that claims about the
    order of calls can be stated on the trace. *)

From Stdlib Require Import ZArith Lia.
From stdpp Require Import base list gmap strings sorting pretty.

Open Scope Z_scope.

(** Python exceptions raised by the embedded code. [NoFuel] is not a
    Python exception: it marks a bounded run of a [while] loop that did
    not finish within the given number of iterations. *)
Inductive exn :=
| TypeError
| ValueError
| KeyError
| AssertionError
| CASCacheError
| TimeoutExpired
| NoFuel.

(** A state and exception monad: [M S A] threads a state of type [S]. *)
Definition M (S A : Type) := S -> exn + (A * S).

Definition ret {S A} (a : A) : M S A := fun s => inr (a, s).
Definition bind {S A B} (m : M S A) (k : A -> M S B) : M S B :=
  fun s => match m s with inl e => inl e | inr (a, s') => k a s' end.
Definition raise {S A} (e : exn) : M S A := fun _ => inl e.
Definition get {S} : M S S := fun s => inr (s, s).
Definition put {S} (s : S) : M S unit := fun _ => inr (tt, s).
Definition modify {S} (f : S -> S) : M S unit := fun s => inr (tt, f s).

Notation "'let!' x := m 'in' k" := (bind m (fun x => k))
  (at level 200, x name, m at level 100, k at level 200).
Notation "m ;;; k" := (bind m (fun _ => k))
  (at level 100, right associativity).

(** ** Resources (src/buildstream/_scheduler/resources.py is not in src/) *)

Inductive ResourceKind := CACHE | DOWNLOAD | UPLOAD | PROCESS.

#[global] Instance ResourceKind_eq_dec : EqDecision ResourceKind.
Proof. solve_decision. Defined.

(** Modelled from the spec: the resource manager of section 4.A, whose
    source (resources.py) is missing. Per kind: a quota, the number of
    tokens in use and the set of tags holding an exclusive interest. *)
Record Resources := mkResources {
  max_resources : ResourceKind -> nat;
  used_resources : ResourceKind -> nat;
  exclusive_resources : ResourceKind -> list string
}.

(** Modelled from the spec: [reserve(requested, exclusive)] succeeds when
    every requested kind is below its quota and carries no exclusive
    interest other than one the caller asks for; it then takes one token
    of each requested kind. Otherwise nothing changes. *)
Definition reserve (requested exclusive : list ResourceKind) (r : Resources)
  : bool * Resources :=
  if forallb (fun k =>
        (used_resources r k <? max_resources r k)%nat &&
        match exclusive_resources r k with
        | [] => true
        | _ => bool_decide (k ∈ exclusive)
        end) requested
  then (true, mkResources (max_resources r)
                (fun k => (used_resources r k + count_occ (decide_rel eq) requested k)%nat)
                (exclusive_resources r))
  else (false, r).

(** Modelled from the spec: [release(kinds)] gives one token of each kind
    back (underflow is a bug of the caller; it saturates here). *)
Definition release (kinds : list ResourceKind) (r : Resources) : Resources :=
  mkResources (max_resources r)
    (fun k => (used_resources r k - count_occ (decide_rel eq) kinds k)%nat)
    (exclusive_resources r).

(** Modelled from the spec: registering an exclusive interest is
    idempotent per tag and kind. *)
Definition register_exclusive_interest (kinds : list ResourceKind) (tag : string)
  (r : Resources) : Resources :=
  mkResources (max_resources r) (used_resources r)
    (fun k => if bool_decide (k ∈ kinds) && negb (bool_decide (tag ∈ exclusive_resources r k))
              then exclusive_resources r k ++ [tag]
              else exclusive_resources r k).

(** Modelled from the spec: unregistering drops the tag. *)
Definition unregister_exclusive_interest (kinds : list ResourceKind) (tag : string)
  (r : Resources) : Resources :=
  mkResources (max_resources r) (used_resources r)
    (fun k => if bool_decide (k ∈ kinds)
              then filter (fun t => t <> tag) (exclusive_resources r k)
              else exclusive_resources r k).

(** ** Jobs *)

(** Modelled from the spec: the completion status of a job (jobs/job.py is
    not in src/): succeeded, failed, skipped or terminated. *)
Inductive JobStatus := JobOK | JobFAIL | JobSKIPPED | JobTERMINATED.

(** A job known to the scheduler: one harvested from a queue, or one of
    the two internal cache maintenance jobs. *)
Inductive Job (J : Type) :=
| QueueJob (j : J)
| CacheSizeJob
| CleanupJob.
Arguments QueueJob {J} j.
Arguments CacheSizeJob {J}.
Arguments CleanupJob {J}.

#[global] Instance Job_eq_dec {J} `{EqDecision J} : EqDecision (Job J).
Proof. solve_decision. Defined.

(** SchedStatus *)
Definition SchedStatus_SUCCESS : Z := 0.
Definition SchedStatus_ERROR : Z := -1.
Definition SchedStatus_TERMINATED : Z := 1.

(** ** The scheduler's collaborators

    The queue objects, the job objects, the clock ([datetime.now()], in
    microseconds) and the artifact cache ([context.artifactcache.full()])
    are oracles over the world [W]. *)
Record Ops (W Q E J : Type) := mkOps {
  q_enqueue : Q -> list E -> W -> W;
  q_dequeue : Q -> W -> W * list E;
  q_harvest_jobs : Q -> W -> W * list J;
  q_dequeue_ready : Q -> W -> W * bool;
  q_failed_elements : Q -> W -> list E;
  job_start : Job J -> W -> W;
  job_terminate : Job J -> W -> W;
  job_terminate_wait : Job J -> Z -> W -> W * bool;
  job_kill : Job J -> W -> W;
  datetime_now : W -> Z;
  artifacts_full : W -> bool
}.
Arguments q_enqueue {W Q E J} o _ _ _.
Arguments q_dequeue {W Q E J} o _ _.
Arguments q_harvest_jobs {W Q E J} o _ _.
Arguments q_dequeue_ready {W Q E J} o _ _.
Arguments q_failed_elements {W Q E J} o _ _.
Arguments job_start {W Q E J} o _ _.
Arguments job_terminate {W Q E J} o _ _.
Arguments job_terminate_wait {W Q E J} o _ _ _.
Arguments job_kill {W Q E J} o _ _.
Arguments datetime_now {W Q E J} o _.
Arguments artifacts_full {W Q E J} o _.

(** The calls the scheduler makes on its collaborators, in the order it
    makes them. *)
Inductive event (Q E J : Type) :=
| EvEnqueue (q : Q) (elements : list E)
| EvDequeue (q : Q) (elements : list E)
| EvHarvestJobs (q : Q) (jobs : list J)
| EvDequeueReady (q : Q) (ready : bool)
| EvJobStartCallback (job : Job J)
| EvJobStart (job : Job J)
| EvJobCompleteCallback (job : Job J) (status : JobStatus)
| EvNow (t : Z)
| EvTerminate (job : Job J)
| EvTerminateWait (job : Job J) (timeout : Z) (result : bool)
| EvKill (job : Job J)
| EvLoopStop.
Arguments EvEnqueue {Q E J} q elements.
Arguments EvDequeue {Q E J} q elements.
Arguments EvHarvestJobs {Q E J} q jobs.
Arguments EvDequeueReady {Q E J} q ready.
Arguments EvJobStartCallback {Q E J} job.
Arguments EvJobStart {Q E J} job.
Arguments EvJobCompleteCallback {Q E J} job status.
Arguments EvNow {Q E J} t.
Arguments EvTerminate {Q E J} job.
Arguments EvTerminateWait {Q E J} job timeout result.
Arguments EvKill {Q E J} job.
Arguments EvLoopStop {Q E J}.

(** The scheduler object: the fields of [Scheduler.__init__] that the
    embedded methods use, the world its collaborators live in and the
    trace of calls made so far. Callbacks are [None] or a function. *)
Record Scheduler (W Q E J : Type) := mkScheduler {
  queues : list Q;
  terminated : bool;
  _active_jobs : list (Job J);
  _queue_jobs : bool;
  _cache_size_scheduled : bool;
  _cache_size_running : option (Job J);
  _cleanup_scheduled : bool;
  _cleanup_running : option (Job J);
  _job_start_callback : option (Job J -> W -> W);
  _job_complete_callback : option (Job J -> JobStatus -> W -> W);
  resources : Resources;
  world : W;
  trace : list (event Q E J)
}.
Arguments mkScheduler {W Q E J}.
Arguments queues {W Q E J} s.
Arguments terminated {W Q E J} s.
Arguments _active_jobs {W Q E J} s.
Arguments _queue_jobs {W Q E J} s.
Arguments _cache_size_scheduled {W Q E J} s.
Arguments _cache_size_running {W Q E J} s.
Arguments _cleanup_scheduled {W Q E J} s.
Arguments _cleanup_running {W Q E J} s.
Arguments _job_start_callback {W Q E J} s.
Arguments _job_complete_callback {W Q E J} s.
Arguments resources {W Q E J} s.
Arguments world {W Q E J} s.
Arguments trace {W Q E J} s.

Section SchedulerMethods.
Context {W Q E J : Type} `{EqDecision J} (ops : Ops W Q E J).

Local Abbreviation Sched := (Scheduler W Q E J).
Local Abbreviation SM := (M Sched).

(** Field updates. *)
Definition set_active_jobs (l : list (Job J)) (s : Sched) : Sched :=
  mkScheduler (queues s) (terminated s) l (_queue_jobs s)
    (_cache_size_scheduled s) (_cache_size_running s) (_cleanup_scheduled s)
    (_cleanup_running s) (_job_start_callback s) (_job_complete_callback s)
    (resources s) (world s) (trace s).

Definition set_queue_jobs (b : bool) (s : Sched) : Sched :=
  mkScheduler (queues s) (terminated s) (_active_jobs s) b
    (_cache_size_scheduled s) (_cache_size_running s) (_cleanup_scheduled s)
    (_cleanup_running s) (_job_start_callback s) (_job_complete_callback s)
    (resources s) (world s) (trace s).

Definition set_cache_size (scheduled : bool) (running : option (Job J)) (s : Sched) : Sched :=
  mkScheduler (queues s) (terminated s) (_active_jobs s) (_queue_jobs s)
    scheduled running (_cleanup_scheduled s)
    (_cleanup_running s) (_job_start_callback s) (_job_complete_callback s)
    (resources s) (world s) (trace s).

Definition set_cleanup (scheduled : bool) (running : option (Job J)) (s : Sched) : Sched :=
  mkScheduler (queues s) (terminated s) (_active_jobs s) (_queue_jobs s)
    (_cache_size_scheduled s) (_cache_size_running s) scheduled
    running (_job_start_callback s) (_job_complete_callback s)
    (resources s) (world s) (trace s).

Definition set_resources (r : Resources) (s : Sched) : Sched :=
  mkScheduler (queues s) (terminated s) (_active_jobs s) (_queue_jobs s)
    (_cache_size_scheduled s) (_cache_size_running s) (_cleanup_scheduled s)
    (_cleanup_running s) (_job_start_callback s) (_job_complete_callback s)
    r (world s) (trace s).

(** A call on a collaborator: the world changes and the call is logged. *)
Definition set_world_log (w : W) (ev : event Q E J) (s : Sched) : Sched :=
  mkScheduler (queues s) (terminated s) (_active_jobs s) (_queue_jobs s)
    (_cache_size_scheduled s) (_cache_size_running s) (_cleanup_scheduled s)
    (_cleanup_running s) (_job_start_callback s) (_job_complete_callback s)
    (resources s) w (trace s ++ [ev]).

Definition call {A} (f : W -> W * A) (ev : A -> event Q E J) : SM A :=
  fun s => let '(w, a) := f (world s) in inr (a, set_world_log w (ev a) s).

Definition call_ (f : W -> W) (ev : event Q E J) : SM unit :=
  fun s => inr (tt, set_world_log (f (world s)) ev s).

(** [stop_queueing()] *)
Definition stop_queueing : SM unit := modify (set_queue_jobs false).

(** [check_cache_size()] *)
Definition check_cache_size : SM unit :=
  modify (fun s => set_cache_size true (_cache_size_running s) s).

(** [_start_job(job)] *)
Definition _start_job (job : Job J) : SM unit :=
  let! s := get in
  put (set_active_jobs (_active_jobs s ++ [job]) s) ;;;
  match _job_start_callback s with
  | Some cb => call_ (cb job) (EvJobStartCallback job)
  | None => ret tt
  end ;;;
  call_ (job_start ops job) (EvJobStart job).

(** [for job in ready: self._start_job(job)] *)
Fixpoint start_jobs (ready : list (Job J)) : SM unit :=
  match ready with
  | [] => ret tt
  | job :: rest => _start_job job ;;; start_jobs rest
  end.

(** [_sched_cleanup_job()] *)
Definition _sched_cleanup_job : SM unit :=
  let! s := get in
  if _cleanup_scheduled s && bool_decide (_cleanup_running s = None) then
    let r := register_exclusive_interest [CACHE] "cache-cleanup" (resources s) in
    let '(ok, r') := reserve [CACHE; PROCESS] [CACHE] r in
    put (set_resources r' s) ;;;
    if ok then
      modify (set_cleanup false (Some CleanupJob)) ;;;
      _start_job CleanupJob
    else ret tt
  else ret tt.

(** [_sched_cache_size_job(exclusive=...)]; a job object is truthy, so
    [not self._cache_size_running] is [_cache_size_running = None]. *)
Definition _sched_cache_size_job (exclusive : bool) : SM unit :=
  (if exclusive then
     let! s := get in
     if _cache_size_scheduled s then raise AssertionError
     else if bool_decide (_cache_size_running s <> None) then raise AssertionError
     else if bool_decide (_active_jobs s <> []) then raise AssertionError
     else modify (fun s => set_cache_size true (_cache_size_running s) s)
   else ret tt) ;;;
  let! s := get in
  if _cache_size_scheduled s && bool_decide (_cache_size_running s = None) then
    let exclusive_resources := if exclusive then [CACHE] else [] in
    let r := if exclusive
             then register_exclusive_interest exclusive_resources "cache-size" (resources s)
             else resources s in
    let '(ok, r') := reserve [CACHE; PROCESS] exclusive_resources r in
    put (set_resources r' s) ;;;
    if ok then
      modify (set_cache_size false (Some CacheSizeJob)) ;;;
      _start_job CacheSizeJob
    else ret tt
  else ret tt.

(** The forward walk: [for queue in self.queues: queue.enqueue(elements);
    elements = list(queue.dequeue())]. *)
Fixpoint pull_forward (qs : list Q) (elements : list E) : SM unit :=
  match qs with
  | [] => ret tt
  | q :: qs' =>
      call_ (q_enqueue ops q elements) (EvEnqueue q elements) ;;;
      let! elements' := call (q_dequeue ops q) (EvDequeue q) in
      pull_forward qs' elements'
  end.

(** [chain.from_iterable(q.harvest_jobs() for q in qs)], consumed by
    [ready.extend]: the queues are asked one after the other. *)
Fixpoint harvest_all (qs : list Q) : SM (list (Job J)) :=
  match qs with
  | [] => ret []
  | q :: qs' =>
      let! jobs := call (q_harvest_jobs ops q) (EvHarvestJobs q) in
      let! rest := harvest_all qs' in
      ret (map QueueJob jobs ++ rest)
  end.

(** [any(q.dequeue_ready() for q in qs)], which stops at the first
    queue answering true. *)
Fixpoint any_dequeue_ready (qs : list Q) : SM bool :=
  match qs with
  | [] => ret false
  | q :: qs' =>
      let! b := call (q_dequeue_ready ops q) (EvDequeueReady q) in
      if b then ret true else any_dequeue_ready qs'
  end.

(** The [while self._queue_jobs and process_queues] loop of
    [_sched_queue_jobs], run for at most [fuel] iterations, followed by
    the start of the collected jobs. *)
Fixpoint queue_jobs_loop (fuel : nat) (process_queues : bool) (ready : list (Job J))
  : SM unit :=
  let! s := get in
  if _queue_jobs s && process_queues then
    match fuel with
    | O => raise NoFuel
    | S fuel' =>
        pull_forward (queues s) [] ;;;
        let! harvested := harvest_all (rev (queues s)) in
        let! process_queues' := any_dequeue_ready (queues s) in
        queue_jobs_loop fuel' process_queues' (ready ++ harvested)
    end
  else start_jobs ready.

(** [_sched_queue_jobs()] *)
Definition _sched_queue_jobs (fuel : nat) : SM unit :=
  queue_jobs_loop fuel true [].

(** [_sched()] *)
Definition _sched (fuel : nat) : SM unit :=
  let! s := get in
  (if terminated s then ret tt
   else _sched_cleanup_job ;;; _sched_cache_size_job false ;;; _sched_queue_jobs fuel) ;;;
  let! s := get in
  match _active_jobs s with
  | [] => modify (fun s => set_world_log (world s) EvLoopStop s)
  | _ => ret tt
  end.

(** [list.remove(x)]: drop the first element equal to [x], or raise
    ValueError. *)
Fixpoint list_remove (x : Job J) (l : list (Job J)) : option (list (Job J)) :=
  match l with
  | [] => None
  | y :: l' => if decide (y = x) then Some l'
               else option_map (cons y) (list_remove x l')
  end.

(** [job_completed(job, status)]; calling [None] raises TypeError. *)
Definition job_completed (fuel : nat) (job : Job J) (status : JobStatus) : SM unit :=
  let! s := get in
  match list_remove job (_active_jobs s) with
  | None => raise ValueError
  | Some l => put (set_active_jobs l s)
  end ;;;
  let! s := get in
  match _job_complete_callback s with
  | Some cb => call_ (cb job status) (EvJobCompleteCallback job status)
  | None => raise TypeError
  end ;;;
  _sched fuel.

(** [_cache_size_job_complete(status, cache_size)] *)
Definition _cache_size_job_complete (status : JobStatus) (cache_size : Z) : SM unit :=
  modify (fun s => set_cache_size (_cache_size_scheduled s) None s) ;;;
  modify (fun s => set_resources (release [CACHE; PROCESS] (resources s)) s) ;;;
  modify (fun s => set_resources
                     (unregister_exclusive_interest [CACHE] "cache-size" (resources s)) s) ;;;
  match status with
  | JobOK =>
      let! s := get in
      if artifacts_full ops (world s)
      then modify (fun s => set_cleanup true (_cleanup_running s) s)
      else ret tt
  | _ => ret tt
  end.

(** [_cleanup_job_complete(status, cache_size)] *)
Definition _cleanup_job_complete (status : JobStatus) (cache_size : Z) : SM unit :=
  modify (fun s => set_cleanup (_cleanup_scheduled s) None s) ;;;
  modify (fun s => set_resources (release [CACHE; PROCESS] (resources s)) s) ;;;
  let! s := get in
  if _cleanup_scheduled s then ret tt
  else modify (fun s => set_resources
                          (unregister_exclusive_interest [CACHE] "cache-cleanup" (resources s)) s).

End SchedulerMethods.

Section SchedulerShutdown.
Context {W Q E J : Type} (ops : Ops W Q E J).

Local Abbreviation Sched := (Scheduler W Q E J).
Local Abbreviation SM := (M Sched).

(** [datetime.datetime.now()], in microseconds. *)
Definition now : SM Z :=
  call (fun w => (w, datetime_now ops w)) EvNow.

(** [wait_limit = 20.0], in microseconds. *)
Definition wait_limit : Z := 20000000.

(** [for job in self._active_jobs: job.terminate()] *)
Fixpoint terminate_all (jobs : list (Job J)) : SM unit :=
  match jobs with
  | [] => ret tt
  | job :: rest => call_ (job_terminate ops job) (EvTerminate job) ;;; terminate_all rest
  end.

(** The second loop of [_terminate_jobs_real]. *)
Fixpoint wait_all (wait_start : Z) (jobs : list (Job J)) : SM unit :=
  match jobs with
  | [] => ret tt
  | job :: rest =>
      let! t := now in
      let elapsed := t - wait_start in
      let timeout := Z.max (wait_limit - elapsed) 0 in
      let! ok := call (job_terminate_wait ops job timeout) (EvTerminateWait job timeout) in
      (if ok then ret tt else call_ (job_kill ops job) (EvKill job)) ;;;
      wait_all wait_start rest
  end.

(** [_terminate_jobs_real()] *)
Definition _terminate_jobs_real : SM unit :=
  let! wait_start := now in
  let! s := get in
  terminate_all (_active_jobs s) ;;;
  let! s := get in
  wait_all wait_start (_active_jobs s).

(** Python truthiness of an element: element objects define neither
    [__bool__] nor [__len__], so every element is truthy. *)
Definition element_truthy (e : E) : bool := true.

(** The end of [run(queues)], once the event loop has stopped
    (scheduler.py lines 166-176). *)
Definition run_status : SM Z :=
  let! s := get in
  let failed := existsb (fun queue => existsb element_truthy
                                        (q_failed_elements ops queue (world s)))
                        (queues s) in
  ret (if failed then SchedStatus_ERROR
       else if terminated s then SchedStatus_TERMINATED
       else SchedStatus_SUCCESS).

End SchedulerShutdown.

(** ** The buildbox-casd process manager (casdprocessmanager.py) *)

Module Casd.

(** [_CASD_MAX_LOGFILES] *)
Definition _CASD_MAX_LOGFILES : nat := 10.

(** Python's [<=] on [str]: code points compared left to right; on the
    UTF-8 bytes of a Rocq string this is the same order. *)
Fixpoint str_leb (a b : string) : bool :=
  match a, b with
  | EmptyString, _ => true
  | String _ _, EmptyString => false
  | String x a', String y b' =>
      if decide (x = y) then str_leb a' b'
      else (Ascii.nat_of_ascii x <? Ascii.nat_of_ascii y)%nat
  end.

Definition str_le (a b : string) : Prop := str_leb a b = true.

#[global] Instance str_le_dec : RelDecision str_le.
Proof. intros a b. unfold str_le. apply _. Defined.

(** [sorted(names)] *)
Definition sorted (names : list string) : list string := merge_sort str_le names.

(** The log directory: [None] when it does not exist, otherwise the set
    of file names in it. *)
Abbreviation LogDir := (option (gset string)).

(** [while len(existing_logs) >= _CASD_MAX_LOGFILES:
       logfile_to_delete = existing_logs.pop(0); os.remove(...)]
    Returns the remaining list, the directory and the deleted names. *)
Fixpoint rotate_loop (existing_logs : list string) (d : gset string)
  : list string * gset string * list string :=
  match existing_logs with
  | [] => ([], d, [])
  | logfile_to_delete :: rest =>
      if (_CASD_MAX_LOGFILES <=? length existing_logs)%nat then
        let '(l, d', deleted) := rotate_loop rest (d ∖ {[logfile_to_delete]}) in
        (l, d', logfile_to_delete :: deleted)
      else (existing_logs, d, [])
  end.

(** [_rotate_and_get_next_logfile()]: the log directory afterwards, the
    deleted names and the name of the new log file [str(start_time) + ".log"]
    ([start_time] is given as its [str]). *)
Definition _rotate_and_get_next_logfile (start_time : string) (log_dir : LogDir)
  : LogDir * list string * string :=
  let name := (start_time +:+ ".log")%string in
  match log_dir with
  | None => (Some ∅, [], name)   (* os.listdir raised FileNotFoundError: os.makedirs *)
  | Some d =>
      let existing_logs := sorted (elements d) in
      let '(_, d', deleted) := rotate_loop existing_logs d in
      (Some d', deleted, name)
  end.

(** The part of [CASDProcessManager.__init__] that touches the log
    directory: rotation, then [open(self._logfile, "w")]. *)
Definition init_log_dir (start_time : string) (log_dir : LogDir) : gset string :=
  let '(d, _, name) := _rotate_and_get_next_logfile start_time log_dir in
  match d with
  | Some d => d ∪ {[name]}
  | None => {[name]}
  end.

(** Messages sent to the messenger. *)
Inductive MessageType := DEBUG | STATUS | INFO | WARN | ERROR | BUG | START | SUCCESS | FAIL.

(** The calls on the child process, the file system, the clock and the
    messenger. Times are in microseconds; a [wait] result [None] is
    [subprocess.TimeoutExpired]. *)
Inductive cevent :=
| CEvPoll (return_code : option Z)
| CEvTerminate
| CEvWait (timeout : Z) (return_code : option Z)
| CEvKill
| CEvMessage (t : MessageType) (exit_code : option Z)
| CEvActivityStart
| CEvActivityEnd
| CEvRmtree
| CEvPathExists (b : bool)
| CEvTime (t : Z)
| CEvSleep (d : Z).

Record CasdOps (W : Type) := mkCasdOps {
  process_poll : W -> option Z;
  process_terminate : W -> W;
  process_wait : Z -> W -> W * option Z;
  process_kill : W -> W;
  rmtree_socket_tempdir : W -> W;
  socket_path_exists : W -> bool;
  time_time : W -> Z;
  time_sleep : Z -> W -> W
}.
Arguments process_poll {W} _ _.
Arguments process_terminate {W} _ _.
Arguments process_wait {W} _ _ _.
Arguments process_kill {W} _ _.
Arguments rmtree_socket_tempdir {W} _ _.
Arguments socket_path_exists {W} _ _.
Arguments time_time {W} _ _.
Arguments time_sleep {W} _ _ _.

Section Manager.
Context {W : Type} (cops : CasdOps W).

Local Abbreviation CM := (M (W * list cevent)).

Definition ccall {A} (f : W -> W * A) (ev : A -> cevent) : CM A :=
  fun '(w, tr) => let '(w', a) := f w in inr (a, (w', tr ++ [ev a])).

Definition ccall_ (f : W -> W) (ev : cevent) : CM unit :=
  fun '(w, tr) => inr (tt, (f w, tr ++ [ev])).

Definition message (t : MessageType) (code : option Z) : CM unit :=
  ccall_ id (CEvMessage t code).

(** [_terminate(messenger)]; [messenger] says whether one was given. A
    [TimeoutExpired] of the last wait propagates as an exception. *)
Definition _terminate (messenger : bool) : CM unit :=
  let! return_code := ccall (fun w => (w, process_poll cops w)) CEvPoll in
  match return_code with
  | Some code =>
      (if messenger then message BUG (Some code) else ret tt)
  | None =>
      ccall_ (process_terminate cops) CEvTerminate ;;;
      let! r := ccall (process_wait cops 500000) (CEvWait 500000) in
      let finish (code : Z) : CM unit :=
        if bool_decide (code <> 0) && messenger then message BUG (Some code) else ret tt in
      match r with
      | Some code => finish code
      | None =>
          (if messenger then ccall_ id CEvActivityStart else ret tt) ;;;
          let! r2 := ccall (process_wait cops 15000000) (CEvWait 15000000) in
          match r2 with
          | Some code =>
              (if messenger then ccall_ id CEvActivityEnd else ret tt) ;;;
              finish code
          | None =>
              ccall_ (process_kill cops) CEvKill ;;;
              let! r3 := ccall (process_wait cops 15000000) (CEvWait 15000000) in
              match r3 with
              | None =>
                  (if messenger then ccall_ id CEvActivityEnd else ret tt) ;;;
                  raise TimeoutExpired
              | Some _ =>
                  (if messenger then message WARN None else ret tt) ;;;
                  (if messenger then ccall_ id CEvActivityEnd else ret tt)
              end
          end
      end
  end.

(** [release_resources(messenger)]; [self.process = None] has no
    observable effect here. *)
Definition release_resources (messenger : bool) : CM unit :=
  _terminate messenger ;;;
  ccall_ (rmtree_socket_tempdir cops) CEvRmtree.

End Manager.

(** The gRPC stubs a [CASDChannel] hands out. *)
Inductive Stub := ByteStreamStub | ContentAddressableStorageStub | LocalContentAddressableStorageStub.

(** [CASDChannel]: [_casd_channel] is [None] or an open channel. *)
Record CASDChannel := mkCASDChannel {
  _start_time : Z;
  _casd_channel : option unit;
  _bytestream : option Stub;
  _casd_cas : option Stub;
  _local_cas : option Stub
}.

Section Channel.
Context {W : Type} (cops : CasdOps W).

Local Abbreviation CM := (M (W * list cevent)).

(** [while not os.path.exists(self._socket_path):
       if time.time() > self._start_time + 15: raise CASCacheError(...)
       time.sleep(0.01)]
    run for at most [fuel] iterations. *)
Fixpoint wait_for_socket (fuel : nat) (start_time : Z) : CM unit :=
  match fuel with
  | O => raise NoFuel
  | S fuel' =>
      let! exists_ := ccall (fun w => (w, socket_path_exists cops w)) CEvPathExists in
      if exists_ then ret tt
      else
        let! t := ccall (fun w => (w, time_time cops w)) CEvTime in
        if t >? start_time + 15000000 then raise CASCacheError
        else ccall_ (time_sleep cops 10000) (CEvSleep 10000) ;;;
             wait_for_socket fuel' start_time
  end.

(** [_establish_connection()] *)
Definition _establish_connection (fuel : nat) (ch : CASDChannel) : CM CASDChannel :=
  match _casd_channel ch with
  | Some _ => raise AssertionError
  | None =>
      wait_for_socket fuel (_start_time ch) ;;;
      ret (mkCASDChannel (_start_time ch) (Some tt) (Some ByteStreamStub)
             (Some ContentAddressableStorageStub) (Some LocalContentAddressableStorageStub))
  end.

Definition ensure_connection (fuel : nat) (ch : CASDChannel) : CM CASDChannel :=
  match _casd_channel ch with
  | None => _establish_connection fuel ch
  | Some _ => ret ch
  end.

(** [get_cas()] *)
Definition get_cas (fuel : nat) (ch : CASDChannel) : CM (CASDChannel * option Stub) :=
  let! ch' := ensure_connection fuel ch in ret (ch', _casd_cas ch').

(** [get_local_cas()] *)
Definition get_local_cas (fuel : nat) (ch : CASDChannel) : CM (CASDChannel * option Stub) :=
  let! ch' := ensure_connection fuel ch in ret (ch', _local_cas ch').

(** [get_bytestream()] *)
Definition get_bytestream (fuel : nat) (ch : CASDChannel) : CM (CASDChannel * option Stub) :=
  let! ch' := ensure_connection fuel ch in ret (ch', _bytestream ch').

End Channel.
End Casd.

(** ** The plugin registry (plugin.py) *)

Module PluginRegistry.

(** A Python dictionary key: an [int] or a [str]. *)
Abbreviation PyKey := (Z + string)%type.

(** The module globals [__PLUGINS_UNIQUE_ID] and [__PLUGINS_TABLE]. The
    table is a [WeakValueDictionary]; entries of live plugins are kept. *)
Record Registry (P : Type) := mkRegistry {
  __PLUGINS_UNIQUE_ID : Z;
  __PLUGINS_TABLE : gmap PyKey P
}.
Arguments mkRegistry {P}.
Arguments __PLUGINS_UNIQUE_ID {P} r.
Arguments __PLUGINS_TABLE {P} r.

(** The registry at import time. *)
Definition initial_registry {P} : Registry P := mkRegistry 0 ∅.

(** [_plugin_register(plugin)] *)
Definition _plugin_register {P} (plugin : P) : M (Registry P) Z :=
  let! r := get in
  let unique_id := __PLUGINS_UNIQUE_ID r + 1 in
  put (mkRegistry unique_id (<[inl unique_id := plugin]> (__PLUGINS_TABLE r))) ;;;
  ret unique_id.

(** [_plugin_unregister(unique_id)]: [del __PLUGINS_TABLE[str(unique_id)]],
    which raises KeyError for a missing key. *)
Definition _plugin_unregister {P} (unique_id : Z) : M (Registry P) unit :=
  let! r := get in
  let key : PyKey := inr (pretty unique_id) in
  match __PLUGINS_TABLE r !! key with
  | None => raise KeyError
  | Some _ => put (mkRegistry (__PLUGINS_UNIQUE_ID r) (delete key (__PLUGINS_TABLE r)))
  end.

End PluginRegistry.

(** ** Suspension and session time (scheduler.py) *)

Module SchedulerTime.

(** A [job.suspend()] or [job.resume()] call. *)
Inductive job_call (J : Type) := JobSuspend (job : J) | JobResume (job : J).
Arguments JobSuspend {J} job.
Arguments JobResume {J} job.

(** The members of [Scheduler] that [_suspend_jobs], [_resume_jobs],
    [elapsed_time] and [_suspend_event] use, and the job calls made so
    far. Datetimes are microseconds; [None] is Python's [None]. *)
Record State (J : Type) := mkState {
  suspended : bool;
  internal_stops : Z;
  _starttime : option Z;
  _suspendtime : option Z;
  _active_jobs : list J;
  calls : list (job_call J)
}.
Arguments mkState {J}.
Arguments suspended {J} s.
Arguments internal_stops {J} s.
Arguments _starttime {J} s.
Arguments _suspendtime {J} s.
Arguments _active_jobs {J} s.
Arguments calls {J} s.

Section Methods.
Context {J : Type}.

Local Abbreviation TM := (M (State J)).

(** [elapsed_time()], with [now] the value of [datetime.datetime.now()];
    a datetime is always truthy, so only [None] takes the [if]. *)
Definition elapsed_time (now : Z) (s : State J) : Z :=
  let starttime := match _starttime s with Some t => t | None => now end in
  now - starttime.

(** [_suspend_jobs()], [now] being [datetime.datetime.now()]. *)
Definition _suspend_jobs (now : Z) : TM unit :=
  modify (fun s =>
    if suspended s then s
    else mkState true (internal_stops s) (_starttime s) (Some now) (_active_jobs s)
           (calls s ++ map JobSuspend (_active_jobs s))).

(** [_resume_jobs()]; [self._starttime += now - self._suspendtime] raises
    TypeError when either is [None]. *)
Definition _resume_jobs (now : Z) : TM unit :=
  let! s := get in
  if suspended s then
    match _suspendtime s, _starttime s with
    | Some su, Some st =>
        put (mkState false (internal_stops s) (Some (st + (now - su))) None (_active_jobs s)
               (calls s ++ map JobResume (_active_jobs s)))
    | _, _ => raise TypeError
    end
  else ret tt.

(** [_suspend_event()]: [t_stop] is the time of [_suspend_jobs], the
    process then stops on SIGSTOP, and [t_cont] is the time of
    [_resume_jobs] once it is continued. *)
Definition _suspend_event (t_stop t_cont : Z) : TM unit :=
  let! s := get in
  if bool_decide (internal_stops s <> 0) then
    put (mkState (suspended s) (internal_stops s - 1) (_starttime s) (_suspendtime s)
           (_active_jobs s) (calls s))
  else _suspend_jobs t_stop ;;; _resume_jobs t_cont.

End Methods.
End SchedulerTime.

(** ** Signal handling (scheduler.py) *)

Module SchedulerSignals.

(** [terminated], the number of [_terminate_jobs_real] calls queued with
    [loop.call_soon], the number of interrupt-callback calls, and whether
    SIGINT is blocked. *)
Record State := mkState {
  terminated : bool;
  call_soon_terminate : nat;
  interrupt_callback_calls : nat;
  sigint_blocked : bool
}.

(** [terminate_jobs()] *)
Definition terminate_jobs (s : State) : State :=
  mkState true (S (call_soon_terminate s)) (interrupt_callback_calls s) true.

(** [_interrupt_event()]; [has_callback] says whether an interrupt
    callback was given. *)
Definition _interrupt_event (has_callback : bool) (s : State) : State :=
  if terminated s then s
  else if has_callback
       then mkState (terminated s) (call_soon_terminate s) (S (interrupt_callback_calls s))
              (sigint_blocked s)
       else terminate_jobs s.

(** [_terminate_event()] *)
Definition _terminate_event (s : State) : State := terminate_jobs s.

End SchedulerSignals.

(** ** Closing a casd channel (casdprocessmanager.py) *)

Module ChannelClose.
Import Casd.

(** [is_closed()] *)
Definition is_closed (ch : CASDChannel) : bool :=
  match _casd_channel ch with None => true | Some _ => false end.

(** [close()]; [self._casd_channel.close()] has no effect on the values
    the channel holds. *)
Definition close (ch : CASDChannel) : CASDChannel :=
  if is_closed ch then ch
  else mkCASDChannel (_start_time ch) None (_bytestream ch) None None.

End ChannelClose.

(** ** Plugin lookup (plugin.py) *)

Module PluginLookup.
Import PluginRegistry.

(** The exception [_plugin_lookup] ends with: its [except] clause runs
    [raise e] with [e] unbound. *)
Inductive lookup_error := NameError.

(** [_plugin_lookup(unique_id)] for an [int] id; the [print] is not
    modelled. *)
Definition _plugin_lookup {P} (unique_id : Z) (r : Registry P) : lookup_error + P :=
  match __PLUGINS_TABLE r !! (inl unique_id : PyKey) with
  | Some plugin => inr plugin
  | None => inl NameError
  end.

(** One call on the registry: [_plugin_register(plugin)] or
    [_plugin_unregister(unique_id)]. *)
Inductive reg_call (P : Type) := CallRegister (plugin : P) | CallUnregister (unique_id : Z).
Arguments CallRegister {P} plugin.
Arguments CallUnregister {P} unique_id.

Definition run_call {P} (c : reg_call P) : M (Registry P) unit :=
  match c with
  | CallRegister plugin => _plugin_register plugin ;;; ret tt
  | CallUnregister unique_id => _plugin_unregister unique_id
  end.

(** The calls one after the other; the first exception stops the run. *)
Fixpoint run_calls {P} (cs : list (reg_call P)) : M (Registry P) unit :=
  match cs with
  | [] => ret tt
  | c :: cs' => run_call c ;;; run_calls cs'
  end.

(** [[_plugin_register(p) for p in plugins]] *)
Fixpoint register_all {P} (plugins : list P) : M (Registry P) (list Z) :=
  match plugins with
  | [] => ret []
  | p :: ps =>
      let! unique_id := _plugin_register p in
      let! ids := register_all ps in
      ret (unique_id :: ids)
  end.

End PluginLookup.

(** ** The filter element (plugins/elements/filter.py) *)

Module FilterElement.

(** The configuration [configure()] stores. *)
Record FilterElement := mkFilterElement {
  include : list string;
  exclude : list string;
  include_orphans : bool
}.

(** The dictionary [get_unique_key()] returns. *)
Record UniqueKey := mkUniqueKey {
  key_include : list string;
  key_exclude : list string;
  key_orphans : bool
}.

(** [get_unique_key()]; [sorted] on a list of [str]. *)
Definition get_unique_key (self : FilterElement) : UniqueKey :=
  mkUniqueKey (Casd.sorted (include self)) (Casd.sorted (exclude self)) (include_orphans self).

End FilterElement.

(** ** The zip source (plugins/sources/zip.py) *)

Module ZipSource.

(** [os.sep] *)
Definition sep : string := "/".

(** [s.endswith(suffix)] *)
Definition endswith (s suffix : string) : bool :=
  String.eqb (String.substring (String.length s - String.length suffix)
                (String.length suffix) s) suffix &&
  (String.length suffix <=? String.length s)%nat.

(** [s[l:]] *)
Definition slice_from (l : nat) (s : string) : string :=
  String.substring l (String.length s - l) s.

(** [_extract_members(archive, base_dir)] on the file names of
    [archive.infolist()]: the names of the members it yields, after
    [member.filename = member.filename[l:]]. *)
Definition _extract_members (filenames : list string) (base_dir : string) : list string :=
  let base_dir := if endswith base_dir sep then base_dir else (base_dir +:+ sep)%string in
  let l := String.length base_dir in
  fold_right (fun filename rest =>
      if String.eqb filename base_dir then rest
      else if String.prefix base_dir filename then slice_from l filename :: rest
      else rest) [] filenames.

(** [ZipInfo.is_dir()]: the name ends with a slash. *)
Definition is_dir (filename : string) : bool := endswith filename "/".

(** [s.split('/')] *)
Fixpoint split_slash_aux (acc : list Ascii.ascii) (s : string) : list string :=
  match s with
  | EmptyString => [String.string_of_list_ascii (rev acc)]
  | String c s' =>
      if Ascii.eqb c (Ascii.ascii_of_nat 47) (* the character / *)
      then String.string_of_list_ascii (rev acc) :: split_slash_aux [] s'
      else split_slash_aux (c :: acc) s'
  end.

Definition split_slash (s : string) : list string := split_slash_aux [] s.

(** ['/'.join(parts)] *)
Fixpoint join_slash (parts : list string) : string :=
  match parts with
  | [] => ""
  | [p] => p
  | p :: ps => (p +:+ "/" +:+ join_slash ps)%string
  end.

(** [['/'.join([components[j] for j in range(i + 1)])
      for i in range(len(components) - 1)]] *)
Definition dir_components (filename : string) : list string :=
  let components := split_slash filename in
  map (fun i => join_slash (take (S i) components)) (seq 0 (length components - 1)).

(** [archive.getinfo(name)] succeeds: some member has that name. *)
Definition getinfo_ok (filenames : list string) (name : string) : bool :=
  existsb (String.eqb name) filenames.

(** The inner loop over the directory components of one file member,
    with the [visited] dictionary. *)
Fixpoint visit_components (filenames : list string) (dcs : list string) (visited : list string)
  : list string * list string :=
  match dcs with
  | [] => ([], visited)
  | dir_component :: dcs' =>
      if existsb (String.eqb dir_component) visited
      then visit_components filenames dcs' visited
      else
        let '(out, visited') := visit_components filenames dcs' (dir_component :: visited) in
        if getinfo_ok filenames dir_component then (out, visited')
        else (dir_component :: out, visited')
  end.

(** The loop of [_list_archive_paths] over [members]; [filenames] are the
    names of the whole archive. *)
Fixpoint list_archive_loop (filenames : list string) (dirs_only : bool)
  (members : list string) (visited : list string) : list string :=
  match members with
  | [] => []
  | filename :: members' =>
      if negb (is_dir filename) then
        let '(out, visited') := visit_components filenames (dir_components filename) visited in
        out ++ list_archive_loop filenames dirs_only members' visited'
      else if String.eqb filename "./" then list_archive_loop filenames dirs_only members' visited
      else if dirs_only && negb (is_dir filename)
      then list_archive_loop filenames dirs_only members' visited
      else filename :: list_archive_loop filenames dirs_only members' visited
  end.

(** [_list_archive_paths(archive, dirs_only)] on the member names of
    [archive.infolist()]. *)
Definition _list_archive_paths (filenames : list string) (dirs_only : bool) : list string :=
  list_archive_loop filenames dirs_only filenames [].

End ZipSource.

(** ** Concrete collaborators used to evaluate the model

    Three queues [0; 1; 2]; the world is a counter bumped by every
    harvest and every wait; queue 0 hands the counter on, queue 1 asks
    for another round while the counter is below 4 and holds one failed
    element; the clock reads one second per counter step; the artifact
    cache is always full. *)
Definition demo_ops : Ops nat nat nat nat :=
  mkOps nat nat nat nat
    (fun q es w => w)
    (fun q w => (w, if decide (q = 0%nat) then [w] else []))
    (fun q w => (S w, [(q * 10 + w)%nat]))
    (fun q w => (w, bool_decide (q = 1%nat) && (w <? 4)%nat))
    (fun q w => if decide (q = 1%nat) then [3%nat] else [])
    (fun j w => w) (fun j w => w) (fun j t w => (S w, Nat.even w)) (fun j w => w)
    (fun w => Z.of_nat w * 1000000) (fun w => true).

(** One token of each kind, none in use, no exclusive interest. *)
Definition demo_resources : Resources :=
  mkResources (fun _ => 1%nat) (fun _ => 0%nat) (fun _ => []).

(** A fresh scheduler over the three queues, all callbacks [None]. *)
Definition demo_sched : Scheduler nat nat nat nat :=
  mkScheduler [0%nat; 1%nat; 2%nat] false [] true false None false None
    None None demo_resources 0%nat [].

(** The same scheduler while queue job [7] of queue [0] runs. *)
Definition demo_sched_running : Scheduler nat nat nat nat :=
  set_active_jobs [QueueJob 7%nat] demo_sched.

(** A channel opened at time [0] that has not connected yet. *)
Definition demo_channel : Casd.CASDChannel := Casd.mkCASDChannel 0 None None None None.

(** A log directory holding three earlier logs. *)
Definition demo_logs : gset string := list_to_set ["100.log"; "200.log"; "300.log"]%string.

(** A casd world: the child's return code once polled, and a clock with
    the socket appearing at a given time (both in microseconds). *)
Record DemoCasd := mkDemoCasd {
  demo_return_code : option Z;
  demo_clock : Z;
  demo_socket_at : Z
}.

Definition demo_casd_ops : Casd.CasdOps DemoCasd :=
  Casd.mkCasdOps DemoCasd
    demo_return_code
    (fun w => w)
    (fun t w => (w, demo_return_code w))
    (fun w => w)
    (fun w => w)
    (fun w => bool_decide (demo_socket_at w <= demo_clock w))
    demo_clock
    (fun d w => mkDemoCasd (demo_return_code w) (demo_clock w + d) (demo_socket_at w)).

(** A terminated scheduler with no active job. *)
Definition demo_sched_terminated : Scheduler nat nat nat nat :=
  mkScheduler [0%nat; 1%nat; 2%nat] true [] true false None false None
    None None demo_resources 0%nat [].

(** A job-complete callback that bumps the world counter. *)
Definition demo_complete_cb (j : Job nat) (st : JobStatus) (w : nat) : nat := S w.

(** Queue jobs [7] and [8] running, with the callback above. *)
Definition demo_sched_complete : Scheduler nat nat nat nat :=
  mkScheduler [0%nat; 1%nat; 2%nat] false [QueueJob 7%nat; QueueJob 8%nat] true false None
    false None None (Some demo_complete_cb) demo_resources 0%nat [].

(** A running session started at time [100] with jobs [1] and [2]. *)
Definition demo_time_state : SchedulerTime.State nat :=
  SchedulerTime.mkState false 0 (Some 100) None [1%nat; 2%nat] [].

(** A casd child that is still running at [poll()], ignores [terminate()]
    and exits with code [-9] once killed. *)
Definition demo_kill_ops : Casd.CasdOps DemoCasd :=
  Casd.mkCasdOps DemoCasd
    (fun w => None)
    (fun w => w)
    (fun t w => (w, demo_return_code w))
    (fun w => mkDemoCasd (Some (-9)) (demo_clock w) (demo_socket_at w))
    (fun w => w)
    (fun w => bool_decide (demo_socket_at w <= demo_clock w))
    demo_clock
    (fun d w => mkDemoCasd (demo_return_code w) (demo_clock w + d) (demo_socket_at w)).

(** The member names of a zip archive without entries for [a] and [x]. *)
Definition demo_zip_names : list string := ["a/b/c"; "a/"; "./"; "x/y"; "a/d"]%string.

(** * Properties *)

Section SchedulerProperties.
Context {W Q E J : Type} `{EqDecision J} (ops : Ops W Q E J).

Lemma existsb_element_truthy (l : list E) :
  existsb element_truthy l = true <-> l <> [].
Proof. destruct l; simpl; split; congruence. Qed.

Lemma existsb_failed (s : Scheduler W Q E J) :
  existsb (fun q => existsb element_truthy (q_failed_elements ops q (world s))) (queues s) = true
  <-> exists q, In q (queues s) /\ q_failed_elements ops q (world s) <> [].
Proof.
  rewrite existsb_exists. split; intros [q [Hq Hf]]; exists q; split; auto;
    apply existsb_element_truthy; auto.
Qed.

Lemma existsb_failed_false (s : Scheduler W Q E J) :
  existsb (fun q => existsb element_truthy (q_failed_elements ops q (world s))) (queues s) = false
  <-> forall q, In q (queues s) -> q_failed_elements ops q (world s) = [].
Proof.
  split.
  - intros Hf q Hq. destruct (q_failed_elements ops q (world s)) eqn:Hl; auto.
    exfalso. assert (Ht : existsb (fun q => existsb element_truthy
                         (q_failed_elements ops q (world s))) (queues s) = true).
    { apply existsb_failed. exists q. rewrite Hl. split; auto; congruence. }
    congruence.
  - intros Hall. destruct (existsb _ _) eqn:Hb; auto.
    apply existsb_failed in Hb. destruct Hb as [q [Hq Hf]]. exfalso. apply Hf, Hall, Hq.
Qed.

(** C1: [run] returns ERROR exactly when some queue has a failed element,
    otherwise TERMINATED exactly when [terminated] is set, otherwise
    SUCCESS; SUCCESS = 0, ERROR = -1 and TERMINATED = 1. *)
Theorem run_status_spec (s : Scheduler W Q E J) :
  SchedStatus_SUCCESS = 0 /\ SchedStatus_ERROR = -1 /\ SchedStatus_TERMINATED = 1 /\
  exists status, run_status ops s = inr (status, s) /\
    (status = SchedStatus_ERROR <->
       exists q, In q (queues s) /\ q_failed_elements ops q (world s) <> []) /\
    (status = SchedStatus_TERMINATED <->
       (forall q, In q (queues s) -> q_failed_elements ops q (world s) = []) /\
       terminated s = true) /\
    (status = SchedStatus_SUCCESS <->
       (forall q, In q (queues s) -> q_failed_elements ops q (world s) = []) /\
       terminated s = false).
Proof.
  split; [reflexivity|]. split; [reflexivity|]. split; [reflexivity|].
  unfold run_status, bind, get, ret. eexists. split; [reflexivity|].
  unfold SchedStatus_ERROR, SchedStatus_TERMINATED, SchedStatus_SUCCESS.
  destruct (existsb _ (queues s)) eqn:Hf.
  - pose proof (proj1 (existsb_failed s) Hf) as Hex.
    destruct Hex as [q [Hq Hne]].
    refine (conj _ (conj _ _)); split; intros HH;
      first [ lia | (exists q; split; assumption)
            | (destruct HH as [Hall _]; exfalso; apply Hne, Hall, Hq) ].
  - pose proof (proj1 (existsb_failed_false s) Hf) as Hall.
    destruct (terminated s); refine (conj _ (conj _ _)); split; intros HH;
      first [ lia | (split; [exact Hall | reflexivity]) | (destruct HH as [_ HH]; discriminate)
            | (destruct HH as [q [Hq Hne]]; exfalso; apply Hne, Hall, Hq) ].
Qed.

(** C3 (amended): when the cache-size job completes, the scheduler drops
    the running job, releases CACHE and PROCESS, unregisters its
    exclusive interest, and sets [_cleanup_scheduled] when the job
    succeeded and the artifact cache reports full; otherwise
    [_cleanup_scheduled] keeps its value. *)
Theorem cache_size_job_complete_spec (s : Scheduler W Q E J) (status : JobStatus) (cache_size : Z) :
  exists s', _cache_size_job_complete ops status cache_size s = inr (tt, s') /\
    _cache_size_running s' = None /\
    resources s' = unregister_exclusive_interest [CACHE] "cache-size"
                     (release [CACHE; PROCESS] (resources s)) /\
    _cleanup_scheduled s' =
      (match status with JobOK => artifacts_full ops (world s) | _ => false end
       || _cleanup_scheduled s) /\
    _active_jobs s' = _active_jobs s /\ world s' = world s /\ trace s' = trace s.
Proof.
  unfold _cache_size_job_complete, bind, modify, get, ret.
  destruct status; [destruct (artifacts_full ops (world s)) eqn:Hf| | |]; simpl;
    rewrite ?Hf; (eexists; split; [reflexivity|]); simpl; rewrite ?Hf;
    repeat split; destruct (_cleanup_scheduled s); reflexivity.
Qed.

Lemma list_remove_in (job : Job J) (l : list (Job J)) :
  In job l -> exists l', list_remove job l = Some l'.
Proof.
  induction l as [|y l IH]; simpl; [tauto|].
  intros [->|Hin].
  - rewrite decide_True by reflexivity. eauto.
  - destruct (decide (y = job)); eauto.
    destruct (IH Hin) as [l' ->]. simpl. eauto.
Qed.

(** C5: [job_completed(job, status)] raises TypeError when
    [_job_complete_callback] is [None], although [_start_job] goes through
    with a [None] [_job_start_callback]. *)
Theorem job_completed_none_callback (fuel : nat) (job : Job J) (status : JobStatus)
  (s : Scheduler W Q E J) :
  In job (_active_jobs s) -> _job_complete_callback s = None ->
  job_completed ops fuel job status s = inl TypeError /\
  (_job_start_callback s = None ->
   exists s', _start_job ops job s = inr (tt, s')).
Proof.
  intros Hin Hcb. split.
  - destruct (list_remove_in job _ Hin) as [l Hl].
    unfold job_completed, bind, get, put. rewrite Hl. simpl. rewrite Hcb. reflexivity.
  - intros Hst. unfold _start_job, bind, get, put, call_, ret. simpl.
    rewrite Hst. eexists. reflexivity.
Qed.

End SchedulerProperties.

Section RegistryProperties.
Import PluginRegistry.
Context {P : Type}.

(** Only [_plugin_register] adds entries, always under an [int] key. *)
Definition int_keyed (r : Registry P) : Prop :=
  forall k : string, __PLUGINS_TABLE r !! (inr k : PyKey) = None.

Lemma initial_registry_int_keyed : int_keyed initial_registry.
Proof. intros k. apply lookup_empty. Qed.

Lemma register_int_keyed (r r' : Registry P) (plugin : P) (unique_id : Z) :
  int_keyed r -> _plugin_register plugin r = inr (unique_id, r') -> int_keyed r'.
Proof.
  unfold _plugin_register, bind, get, put, ret. intros Hr Heq k.
  inversion Heq; subst; simpl. rewrite lookup_insert_ne by congruence. apply Hr.
Qed.

Lemma unregister_int_keyed (r r' : Registry P) (unique_id : Z) :
  int_keyed r -> _plugin_unregister unique_id r = inr (tt, r') -> int_keyed r'.
Proof.
  unfold _plugin_unregister, bind, get, put. intros Hr Heq k.
  destruct (__PLUGINS_TABLE r !! _) eqn:Hl; [|discriminate].
  rewrite Hr in Hl. discriminate.
Qed.

(** C6: [_plugin_register] returns the counter plus one and stores the
    plugin under that [int]; [_plugin_unregister] with that id looks up
    [str(id)], which is never a key, and raises KeyError. *)
Theorem plugin_unregister_after_register (r : Registry P) (plugin : P) :
  int_keyed r ->
  exists r', _plugin_register plugin r = inr (__PLUGINS_UNIQUE_ID r + 1, r') /\
    __PLUGINS_UNIQUE_ID r' = __PLUGINS_UNIQUE_ID r + 1 /\
    __PLUGINS_TABLE r' !! (inl (__PLUGINS_UNIQUE_ID r + 1) : PyKey) = Some plugin /\
    _plugin_unregister (__PLUGINS_UNIQUE_ID r + 1) r' = inl KeyError.
Proof.
  intros Hr. unfold _plugin_register, bind, get, put, ret. simpl.
  eexists. split; [reflexivity|]. simpl. split; [reflexivity|]. split.
  - apply lookup_insert_eq.
  - unfold _plugin_unregister, bind, get. simpl.
    rewrite lookup_insert_ne by congruence. rewrite Hr. reflexivity.
Qed.

End RegistryProperties.

Section CasdProperties.
Import Casd.
Context {W : Type} (cops : CasdOps W).

(** C8 (amended): when the child has already exited, [release_resources]
    with a messenger reports one BUG message carrying the exit code,
    whatever that code is, then only removes the socket directory: no
    terminate, wait or kill. *)
Theorem release_resources_already_exited (w : W) (tr : list cevent) (code : Z) :
  process_poll cops w = Some code ->
  release_resources cops true (w, tr) =
    inr (tt, (rmtree_socket_tempdir cops w,
              tr ++ [CEvPoll (Some code); CEvMessage BUG (Some code); CEvRmtree])).
Proof.
  intros Hp. unfold release_resources, _terminate, message, ccall, ccall_, bind, ret.
  simpl. rewrite Hp. simpl. rewrite <- !app_assoc. reflexivity.
Qed.

End CasdProperties.

(** C8 counterexample: a child that already exited with code 0 still
    gets a BUG message. *)
Lemma release_resources_exit_zero_reports_bug :
  Casd.release_resources demo_casd_ops true (mkDemoCasd (Some 0) 0 0, []) =
    inr (tt, (mkDemoCasd (Some 0) 0 0,
              [Casd.CEvPoll (Some 0); Casd.CEvMessage Casd.BUG (Some 0); Casd.CEvRmtree])).
Proof. reflexivity. Qed.

Section LogRotation.
Import Casd.

Lemma nat_of_ascii_inj (x y : Ascii.ascii) :
  Ascii.nat_of_ascii x = Ascii.nat_of_ascii y -> x = y.
Proof.
  intros H. rewrite <- (Ascii.ascii_nat_embedding x), <- (Ascii.ascii_nat_embedding y).
  congruence.
Qed.

Lemma str_leb_cons x a y b :
  str_leb (String x a) (String y b) =
    if decide (x = y) then str_leb a b
    else (Ascii.nat_of_ascii x <? Ascii.nat_of_ascii y)%nat.
Proof. reflexivity. Qed.

Lemma str_leb_total (a b : string) : str_leb a b = true \/ str_leb b a = true.
Proof.
  revert b. induction a as [|x a IH]; intros [|y b]; auto.
  rewrite !str_leb_cons.
  destruct (decide (x = y)) as [->|Hxy].
  - rewrite decide_True by reflexivity. apply IH.
  - rewrite decide_False by congruence. rewrite !Nat.ltb_lt.
    assert (Ascii.nat_of_ascii x <> Ascii.nat_of_ascii y)
      by (intros Heq; apply Hxy, nat_of_ascii_inj, Heq).
    lia.
Qed.

Lemma str_leb_trans (a b c : string) :
  str_leb a b = true -> str_leb b c = true -> str_leb a c = true.
Proof.
  revert b c. induction a as [|x a IH]; intros [|y b] [|z c]; auto; try discriminate.
  rewrite !str_leb_cons.
  destruct (decide (x = y)) as [->|Hxy]; destruct (decide (y = z)) as [->|Hyz].
  - apply IH.
  - intros _ H. exact H.
  - intros H _. rewrite decide_False by congruence. exact H.
  - rewrite !Nat.ltb_lt. intros H1 H2.
    rewrite decide_False by (intros ->; lia). apply Nat.ltb_lt. lia.
Qed.

#[local] Instance str_le_total : Total str_le.
Proof. intros a b. apply str_leb_total. Qed.

#[local] Instance str_le_trans : Transitive str_le.
Proof. intros a b c. apply str_leb_trans. Qed.

Lemma sorted_sorted (names : list string) : StronglySorted str_le (sorted names).
Proof. apply StronglySorted_merge_sort; apply _. Qed.

Lemma StronglySorted_app_rel {A} (R : relation A) (l1 l2 : list A) x y :
  StronglySorted R (l1 ++ l2) -> x ∈ l1 -> y ∈ l2 -> R x y.
Proof.
  induction l1 as [|a l1 IH]; simpl; intros Hs Hx Hy.
  - exfalso. by apply not_elem_of_nil in Hx.
  - apply StronglySorted_inv in Hs as [Hs Hall].
    apply elem_of_cons in Hx as [->|Hx].
    + rewrite Forall_forall in Hall. apply Hall, elem_of_app. by right.
    + by apply IH.
Qed.

(** The rotation loop deletes the first [length l - 9] names of [l]. *)
Lemma rotate_loop_spec (l : list string) (d : gset string) :
  rotate_loop l d =
    (drop (length l - 9) l, d ∖ list_to_set (take (length l - 9) l), take (length l - 9) l).
Proof.
  revert d. induction l as [|x rest IH]; intros d.
  - simpl. rewrite difference_empty_L. reflexivity.
  - change (rotate_loop (x :: rest) d) with
      (if (_CASD_MAX_LOGFILES <=? length (x :: rest))%nat
       then let '(l, d', deleted) := rotate_loop rest (d ∖ {[x]}) in (l, d', x :: deleted)
       else (x :: rest, d, [])).
    unfold _CASD_MAX_LOGFILES. simpl length.
    destruct (Nat.leb_spec 10 (S (length rest))) as [Hge|Hlt].
    + rewrite IH. replace (S (length rest) - 9)%nat with (S (length rest - 9)) by lia.
      simpl. do 2 f_equal. apply leibniz_equiv. set_solver.
    + replace (S (length rest) - 9)%nat with 0%nat by lia. simpl.
      rewrite difference_empty_L. reflexivity.
Qed.

Lemma size_union_singleton_le (X : gset string) (x : string) :
  (size (X ∪ {[x]}) <= size X + 1)%nat.
Proof.
  rewrite size_union_alt. pose proof (subseteq_size ({[x]} ∖ X) {[x]}) as H.
  rewrite size_singleton in H. assert (size ({[x]} ∖ X) <= 1)%nat by (apply H; set_solver).
  lia.
Qed.

End LogRotation.

Lemma rotate_dir_eq (d : gset string) (k : nat) :
  let l := Casd.sorted (elements d) in
  NoDup l /\ d ∖ list_to_set (take k l) = list_to_set (drop k l).
Proof.
  intros l.
  assert (Hp : l ≡ₚ elements d) by apply merge_sort_Permutation.
  assert (Hnd : NoDup l) by (rewrite Hp; apply NoDup_elements).
  split; [exact Hnd|].
  pose proof Hnd as Hnd'. rewrite <- (take_drop k l) in Hnd'.
  apply NoDup_app in Hnd' as [_ [Hdisj _]].
  apply leibniz_equiv. intros x. rewrite elem_of_difference, !elem_of_list_to_set.
  assert (Hx : x ∈ d <-> x ∈ take k l \/ x ∈ drop k l).
  { rewrite <- elem_of_app, take_drop, Hp, elem_of_elements. reflexivity. }
  split.
  - intros [Hd Ht]. apply Hx in Hd as [?|?]; tauto.
  - intros Hdr. split.
    + apply Hx. by right.
    + intros Ht. by apply (Hdisj x).
Qed.

(** C9: after the construction of the casd process manager the log
    directory holds at most 10 files, among them [<start_time>.log]; an
    existing directory loses exactly the first [n - 9] of its [n] names in
    [sorted()] order (nothing when [n <= 9]), so every deleted name sorts
    before every kept one. *)
Theorem log_rotation_spec (start_time : string) (log_dir : Casd.LogDir) :
  (size (Casd.init_log_dir start_time log_dir) <= 10)%nat /\
  (start_time +:+ ".log")%string ∈ Casd.init_log_dir start_time log_dir /\
  (forall d, log_dir = Some d ->
     let existing_logs := Casd.sorted (elements d) in
     let k := (length existing_logs - (Casd._CASD_MAX_LOGFILES - 1))%nat in
     Casd._rotate_and_get_next_logfile start_time log_dir =
       (Some (list_to_set (drop k existing_logs)), take k existing_logs,
        (start_time +:+ ".log")%string) /\
     (forall x y, x ∈ take k existing_logs -> y ∈ drop k existing_logs -> Casd.str_le x y)).
Proof.
  destruct log_dir as [d|].
  - set (l := Casd.sorted (elements d)).
    set (k := (length l - 9)%nat).
    destruct (rotate_dir_eq d k) as [Hnd Heq]. fold l in Hnd, Heq.
    assert (Hrot : Casd._rotate_and_get_next_logfile start_time (Some d) =
              (Some (list_to_set (drop k l)), take k l, (start_time +:+ ".log")%string)).
    { unfold Casd._rotate_and_get_next_logfile. fold l.
      rewrite rotate_loop_spec. subst k. rewrite Heq. reflexivity. }
    assert (Hinit : Casd.init_log_dir start_time (Some d) =
              list_to_set (drop k l) ∪ {[(start_time +:+ ".log")%string]}).
    { unfold Casd.init_log_dir. rewrite Hrot. reflexivity. }
    split; [|split].
    + rewrite Hinit. etransitivity; [apply size_union_singleton_le|].
      rewrite size_list_to_set.
      * rewrite length_drop. subst k. lia.
      * rewrite <- (take_drop k l) in Hnd. apply NoDup_app in Hnd. tauto.
    + rewrite Hinit. set_solver.
    + intros d' [= <-]. simpl. split; [exact Hrot|].
      intros x y Hx Hy. apply (StronglySorted_app_rel _ (take k l) (drop k l)); auto.
      rewrite take_drop. apply sorted_sorted.
  - split; [|split].
    + unfold Casd.init_log_dir, Casd._rotate_and_get_next_logfile.
      etransitivity; [apply size_union_singleton_le|]. rewrite size_empty. lia.
    + unfold Casd.init_log_dir, Casd._rotate_and_get_next_logfile. set_solver.
    + intros d Hd. discriminate.
Qed.

Section ChannelProperties.
Import Casd.
Context {W : Type} (cops : CasdOps W).

(** The world after [n] polling rounds: [time.sleep(0.01)] applied [n] times. *)
Definition after_sleeps (n : nat) (w0 : W) : W := Nat.iter n (time_sleep cops 10000) w0.

Lemma wait_for_socket_times_out (start_time : Z) (w0 : W)
  (Hsleep : forall w, time_time cops (time_sleep cops 10000 w) >= time_time cops w + 10000)
  (Habsent : forall n, (forall m, (m < n)%nat ->
                          time_time cops (after_sleeps m w0) <= start_time + 15000000) ->
             socket_path_exists cops (after_sleeps n w0) = false) :
  forall fuel j tr,
    (forall m, (m < j)%nat -> time_time cops (after_sleeps m w0) <= start_time + 15000000) ->
    time_time cops (after_sleeps j w0) + 10000 * Z.of_nat fuel > start_time + 15000000 ->
    wait_for_socket cops (S fuel) start_time (after_sleeps j w0, tr) = inl CASCacheError.
Proof.
  induction fuel as [|fuel IH]; intros j tr Hpre Hfuel;
    unfold wait_for_socket; fold (wait_for_socket cops);
    unfold ccall, ccall_, bind, ret; simpl;
    rewrite (Habsent j Hpre); simpl.
  - destruct (Z.gtb_spec (time_time cops (after_sleeps j w0)) (start_time + 15000000)); [reflexivity|].
    lia.
  - destruct (Z.gtb_spec (time_time cops (after_sleeps j w0)) (start_time + 15000000))
      as [Hgt|Hle]; [reflexivity|].
    change (time_sleep cops 10000 (after_sleeps j w0)) with (after_sleeps (S j) w0).
    apply IH.
    + intros m Hm. destruct (decide (m = j)) as [->|Hne]; [exact Hle|]. apply Hpre. lia.
    + pose proof (Hsleep (after_sleeps j w0)) as Hs.
      change (time_sleep cops 10000 (after_sleeps j w0)) with (after_sleeps (S j) w0) in Hs.
      lia.
Qed.

(** C7: on first use ([_casd_channel] is [None]) [get_cas], [get_local_cas]
    and [get_bytestream] poll the socket path, sleeping 10 ms between
    polls; when the socket is absent at every poll up to and including
    the first one taken after [_start_time + 15] seconds (the start time
    of the process manager), each of them raises CASCacheError rather
    than returning a stub. Times are in microseconds. *)
Theorem get_stub_times_out (ch : CASDChannel) (w0 : W) (tr : list cevent) :
  _casd_channel ch = None ->
  (forall w, time_time cops (time_sleep cops 10000 w) >= time_time cops w + 10000) ->
  (forall n, (forall m, (m < n)%nat ->
                time_time cops (after_sleeps m w0) <= _start_time ch + 15000000) ->
     socket_path_exists cops (after_sleeps n w0) = false) ->
  exists fuel, forall fuel', (fuel <= fuel')%nat ->
    get_cas cops fuel' ch (w0, tr) = inl CASCacheError /\
    get_local_cas cops fuel' ch (w0, tr) = inl CASCacheError /\
    get_bytestream cops fuel' ch (w0, tr) = inl CASCacheError.
Proof.
  intros Hch Hsleep Habsent.
  set (F := Z.to_nat (_start_time ch + 15000000 - time_time cops w0 + 1)).
  exists (S F). intros fuel' Hf.
  destruct fuel' as [|f]; [lia|].
  assert (Hw : wait_for_socket cops (S f) (_start_time ch) (w0, tr) = inl CASCacheError).
  { apply (wait_for_socket_times_out (_start_time ch) w0 Hsleep Habsent f 0 tr).
    - intros m Hm. lia.
    - simpl. subst F. lia. }
  unfold get_cas, get_local_cas, get_bytestream, ensure_connection, _establish_connection.
  rewrite Hch. unfold bind. rewrite Hw. repeat split.
Qed.

End ChannelProperties.

Section TerminationProperties.
Context {W Q E J : Type} (ops : Ops W Q E J).

(** The calls made while waiting on one job: read the clock, wait with
    the remaining part of the budget started at [wait_start], and kill
    the job when the wait reports that it has not exited. *)
Definition wait_events (wait_start : Z) (job : Job J) (t : Z) (exited : bool)
  : list (event Q E J) :=
  [EvNow t; EvTerminateWait job (Z.max (wait_limit - (t - wait_start)) 0) exited] ++
  (if exited then [] else [EvKill job]).

Lemma terminate_all_spec (jobs : list (Job J)) (s : Scheduler W Q E J) :
  exists s', terminate_all ops jobs s = inr (tt, s') /\
    trace s' = trace s ++ map EvTerminate jobs /\ _active_jobs s' = _active_jobs s.
Proof.
  revert s. induction jobs as [|job jobs IH]; intros s; simpl.
  - exists s. rewrite app_nil_r. auto.
  - unfold bind, call_. destruct (IH (set_world_log (job_terminate ops job (world s))
                                          (EvTerminate job) s)) as [s' [Hr [Ht Ha]]].
    rewrite Hr. exists s'. split; [reflexivity|]. rewrite Ht. simpl.
    rewrite <- app_assoc. auto.
Qed.

Lemma wait_all_spec (wait_start : Z) (jobs : list (Job J)) (s : Scheduler W Q E J) :
  exists s' (waits : list (Z * bool)), wait_all ops wait_start jobs s = inr (tt, s') /\
    length waits = length jobs /\
    trace s' = trace s ++ concat (zip_with (fun job '(t, exited) =>
                                     wait_events wait_start job t exited) jobs waits) /\
    _active_jobs s' = _active_jobs s.
Proof.
  revert s. induction jobs as [|job jobs IH]; intros s.
  - exists s, []. simpl. rewrite app_nil_r. auto.
  - simpl. unfold now, bind, call, call_, ret. simpl.
    set (t := datetime_now ops (world s)).
    set (s1 := set_world_log (world s) (EvNow t) s).
    set (timeout := Z.max (wait_limit - (t - wait_start)) 0).
    destruct (job_terminate_wait ops job timeout (world s)) as [w2 exited] eqn:Hw.
    set (s2 := set_world_log w2 (EvTerminateWait job timeout exited) s1).
    destruct exited; simpl.
    + destruct (IH s2) as [s' [waits [Hr [Hl [Ht Ha]]]]].
      exists s', ((t, true) :: waits). rewrite Hr. split; [reflexivity|].
      split; [simpl; lia|]. split; [|exact Ha].
      rewrite Ht. simpl. unfold wait_events. simpl. rewrite <- !app_assoc. reflexivity.
    + destruct (IH (set_world_log (job_kill ops job w2) (EvKill job) s2))
        as [s' [waits [Hr [Hl [Ht Ha]]]]].
      exists s', ((t, false) :: waits). rewrite Hr. split; [reflexivity|].
      split; [simpl; lia|]. split; [|exact Ha].
      rewrite Ht. simpl. unfold wait_events. simpl. rewrite <- !app_assoc. reflexivity.
Qed.

(** C4: [_terminate_jobs_real] reads the clock once, calls [terminate()]
    on every active job, then for each active job in order reads the
    clock, calls [terminate_wait] with what is left of the 20 second
    budget started at the first reading (never below 0), and calls
    [kill()] on that job exactly when the wait returned false. *)
Theorem terminate_jobs_real_spec (s : Scheduler W Q E J) :
  let wait_start := datetime_now ops (world s) in
  exists s' (waits : list (Z * bool)), _terminate_jobs_real ops s = inr (tt, s') /\
    length waits = length (_active_jobs s) /\
    trace s' = trace s ++ [EvNow wait_start] ++ map EvTerminate (_active_jobs s) ++
               concat (zip_with (fun job '(t, exited) => wait_events wait_start job t exited)
                        (_active_jobs s) waits) /\
    _active_jobs s' = _active_jobs s.
Proof.
  intros wait_start. unfold _terminate_jobs_real, now, bind, get, call. simpl.
  destruct (terminate_all_spec (_active_jobs s)
              (set_world_log (world s) (EvNow (datetime_now ops (world s))) s))
    as [s2 [Hr2 [Ht2 Ha2]]].
  rewrite Hr2.
  destruct (wait_all_spec (datetime_now ops (world s)) (_active_jobs s2) s2)
    as [s3 [waits [Hr3 [Hl3 [Ht3 Ha3]]]]].
  rewrite Hr3. exists s3, waits. split; [reflexivity|].
  rewrite Ha2 in Hl3, Ht3. simpl in Hl3, Ht3.
  split; [exact Hl3|]. split.
  - rewrite Ht3, Ht2. simpl. rewrite <- !app_assoc. reflexivity.
  - rewrite Ha3, Ha2. reflexivity.
Qed.

End TerminationProperties.

Section QueueLoopProperties.
Context {W Q E J : Type} `{EqDecision J} (ops : Ops W Q E J).

Local Abbreviation Sched := (Scheduler W Q E J).

(** The fields the queue loop never changes. *)
Definition loop_frame (s s1 : Sched) : Prop :=
  queues s1 = queues s /\ _queue_jobs s1 = _queue_jobs s /\
  _active_jobs s1 = _active_jobs s /\ _job_start_callback s1 = _job_start_callback s.

Lemma loop_frame_refl (s : Sched) : loop_frame s s.
Proof. repeat split. Qed.

Lemma loop_frame_trans (s s1 s2 : Sched) :
  loop_frame s s1 -> loop_frame s1 s2 -> loop_frame s s2.
Proof. intros (?&?&?&?) (?&?&?&?). repeat split; congruence. Qed.

Lemma loop_frame_log (s : Sched) w ev : loop_frame s (set_world_log w ev s).
Proof. repeat split. Qed.

Create HintDb loopframe.
#[local] Hint Resolve loop_frame_refl loop_frame_log : loopframe.

(** The forward walk: queue [i] gets what queue [i-1] has just given out. *)
Fixpoint forward_events (elements : list E) (qs : list Q) (outs : list (list E))
  : list (event Q E J) :=
  match qs, outs with
  | q :: qs', out :: outs' => EvEnqueue q elements :: EvDequeue q out :: forward_events out qs' outs'
  | _, _ => []
  end.

(** [bs] are the answers of [dequeue_ready()] in queue order, up to the
    first [true]; [b] is the value of [any(...)]. *)
Fixpoint any_answers (qs : list Q) (bs : list bool) (b : bool) : Prop :=
  match qs, bs with
  | [], [] => b = false
  | _ :: _, [true] => b = true
  | _ :: qs', false :: bs' => any_answers qs' bs' b
  | _, _ => False
  end.

(** The calls of [_start_job] for each job of [ready], in order. *)
Definition start_events (has_callback : bool) (ready : list (Job J)) : list (event Q E J) :=
  concat (map (fun job => (if has_callback then [EvJobStartCallback job] else []) ++
                          [EvJobStart job]) ready).

Lemma pull_forward_spec (qs : list Q) (elements : list E) (s : Sched) :
  exists s1 outs, pull_forward ops qs elements s = inr (tt, s1) /\
    length outs = length qs /\
    trace s1 = trace s ++ forward_events elements qs outs /\ loop_frame s s1.
Proof.
  revert elements s. induction qs as [|q qs IH]; intros elements s.
  - exists s, []. simpl. rewrite app_nil_r. auto with loopframe.
  - simpl. unfold bind, call, call_. simpl.
    destruct (q_dequeue ops q (q_enqueue ops q elements (world s))) as [w2 out] eqn:Hd.
    set (s2 := set_world_log w2 (EvDequeue q out)
                 (set_world_log (q_enqueue ops q elements (world s)) (EvEnqueue q elements) s)).
    destruct (IH out s2) as [s3 [outs [Hr [Hl [Ht Hf]]]]].
    exists s3, (out :: outs). rewrite Hr. split; [reflexivity|].
    split; [simpl; lia|]. split.
    + rewrite Ht. simpl. rewrite <- !app_assoc. reflexivity.
    + eapply loop_frame_trans; [|exact Hf]. repeat split.
Qed.

Lemma harvest_all_spec (qs : list Q) (s : Sched) :
  exists s1 jss, harvest_all ops qs s = inr (map QueueJob (concat jss), s1) /\
    length jss = length qs /\
    trace s1 = trace s ++ zip_with EvHarvestJobs qs jss /\ loop_frame s s1.
Proof.
  revert s. induction qs as [|q qs IH]; intros s.
  - exists s, []. simpl. rewrite app_nil_r. auto with loopframe.
  - simpl. unfold bind, call, ret. simpl.
    destruct (q_harvest_jobs ops q (world s)) as [w1 jobs] eqn:Hh.
    set (s1 := set_world_log w1 (EvHarvestJobs q jobs) s).
    destruct (IH s1) as [s2 [jss [Hr [Hl [Ht Hf]]]]].
    exists s2, (jobs :: jss). rewrite Hr. simpl. rewrite map_app. split; [reflexivity|].
    split; [lia|]. split.
    + rewrite Ht. simpl. rewrite <- !app_assoc. reflexivity.
    + eapply loop_frame_trans; [|exact Hf]. repeat split.
Qed.

Lemma any_dequeue_ready_spec (qs : list Q) (s : Sched) :
  exists s1 bs b, any_dequeue_ready ops qs s = inr (b, s1) /\
    any_answers qs bs b /\
    trace s1 = trace s ++ zip_with EvDequeueReady qs bs /\ loop_frame s s1.
Proof.
  revert s. induction qs as [|q qs IH]; intros s.
  - exists s, [], false. simpl. rewrite app_nil_r. auto with loopframe.
  - simpl. unfold bind, call, ret. simpl.
    destruct (q_dequeue_ready ops q (world s)) as [w1 b1] eqn:Hq.
    set (s1 := set_world_log w1 (EvDequeueReady q b1) s).
    destruct b1.
    + exists s1, [true], true. split; [reflexivity|]. split; [reflexivity|].
      split; [simpl; rewrite zip_with_nil_r; reflexivity|]. apply loop_frame_log.
    + destruct (IH s1) as [s2 [bs [b [Hr [Ha [Ht Hf]]]]]].
      exists s2, (false :: bs), b. split; [exact Hr|]. split; [exact Ha|]. split.
      * rewrite Ht. simpl. rewrite <- !app_assoc. reflexivity.
      * eapply loop_frame_trans; [|exact Hf]. apply loop_frame_log.
Qed.

Lemma start_jobs_spec (ready : list (Job J)) (s : Sched) :
  exists s1, start_jobs ops ready s = inr (tt, s1) /\
    trace s1 = trace s ++ start_events (bool_decide (_job_start_callback s <> None)) ready /\
    _active_jobs s1 = _active_jobs s ++ ready /\
    queues s1 = queues s /\ _queue_jobs s1 = _queue_jobs s /\
    _job_start_callback s1 = _job_start_callback s.
Proof.
  revert s. induction ready as [|job ready IH]; intros s.
  - exists s. unfold start_events. simpl. rewrite !app_nil_r. repeat split.
  - simpl. unfold _start_job, bind, get, put, call_, ret. simpl.
    destruct (_job_start_callback s) as [cb|] eqn:Hcb; simpl.
    + edestruct IH as [s1 [Hr [Ht [Ha [Hq [Hqj Hc]]]]]]. rewrite Hr.
      exists s1. split; [reflexivity|]. rewrite Ht, Ha, Hq, Hqj, Hc. simpl.
      rewrite Hcb. unfold start_events. simpl. rewrite <- !app_assoc.
      repeat split; reflexivity.
    + edestruct IH as [s1 [Hr [Ht [Ha [Hq [Hqj Hc]]]]]]. rewrite Hr.
      exists s1. split; [reflexivity|]. rewrite Ht, Ha, Hq, Hqj, Hc. simpl.
      rewrite Hcb. unfold start_events. simpl. rewrite <- !app_assoc.
      repeat split; reflexivity.
Qed.

End QueueLoopProperties.

Section QueueLoopTheorem.
Context {W Q E J : Type} `{EqDecision J} (ops : Ops W Q E J).

Local Abbreviation Sched := (Scheduler W Q E J).

(** What one iteration of the [while] loop of [_sched_queue_jobs] saw:
    the elements each queue gave out, the jobs each queue harvested (in
    the order the queues were asked), the answers of [dequeue_ready()]
    and the value of [any(...)]. *)
Record round := mkRound {
  r_outs : list (list E);
  r_jobs : list (list J);
  r_ready : list bool;
  r_more : bool
}.

Definition round_ok (qs : list Q) (r : round) : Prop :=
  length (r_outs r) = length qs /\ length (r_jobs r) = length qs /\
  any_answers qs (r_ready r) (r_more r).

(** The calls of one iteration: the forward walk from an empty list, the
    harvest in reverse queue order, then the [dequeue_ready()] calls. *)
Definition round_events (qs : list Q) (r : round) : list (event Q E J) :=
  forward_events [] qs (r_outs r) ++
  zip_with EvHarvestJobs (rev qs) (r_jobs r) ++
  zip_with EvDequeueReady qs (r_ready r).

(** The jobs one iteration appends to [ready]. *)
Definition round_harvest (r : round) : list (Job J) := map QueueJob (concat (r_jobs r)).

Lemma queue_jobs_loop_spec (fuel : nat) (ready : list (Job J)) (s s' : Sched) :
  _queue_jobs s = true ->
  queue_jobs_loop ops fuel true ready s = inr (tt, s') ->
  exists rounds : list round,
    rounds <> [] /\ Forall (round_ok (queues s)) rounds /\
    map r_more rounds = repeat true (length rounds - 1) ++ [false] /\
    trace s' = trace s ++ concat (map (round_events (queues s)) rounds) ++
               start_events (bool_decide (_job_start_callback s <> None))
                 (ready ++ concat (map round_harvest rounds)) /\
    _active_jobs s' = _active_jobs s ++ ready ++ concat (map round_harvest rounds).
Proof.
  revert ready s. induction fuel as [|fuel IH]; intros ready s Hqj Hrun.
  - unfold queue_jobs_loop, bind, get in Hrun. rewrite Hqj in Hrun. discriminate.
  - unfold queue_jobs_loop in Hrun. fold (queue_jobs_loop ops fuel) in Hrun.
    unfold bind at 1, get in Hrun. rewrite Hqj in Hrun. simpl in Hrun.
    destruct (pull_forward_spec ops (queues s) [] s) as [s1 [outs [Hr1 [Hl1 [Ht1 Hf1]]]]].
    unfold bind at 1 in Hrun. rewrite Hr1 in Hrun.
    destruct (harvest_all_spec ops (rev (queues s)) s1) as [s2 [jss [Hr2 [Hl2 [Ht2 Hf2]]]]].
    unfold bind at 1 in Hrun. rewrite Hr2 in Hrun.
    destruct Hf1 as (Hq1 & Hqj1 & Ha1 & Hc1).
    destruct Hf2 as (Hq2 & Hqj2 & Ha2 & Hc2).
    destruct (any_dequeue_ready_spec ops (queues s) s2) as [s3 [bs [b [Hr3 [Hb3 [Ht3 Hf3]]]]]].
    unfold bind at 1 in Hrun. rewrite Hr3 in Hrun.
    destruct Hf3 as (Hq3 & Hqj3 & Ha3 & Hc3).
    rewrite length_rev in Hl2.
    set (r := mkRound outs jss bs b).
    assert (Hrok : round_ok (queues s) r) by (repeat split; auto).
    assert (Htr3 : trace s3 = trace s ++ round_events (queues s) r).
    { rewrite Ht3, Ht2, Ht1. unfold round_events. simpl. rewrite <- !app_assoc. reflexivity. }
    destruct b.
    + assert (Hqj3' : _queue_jobs s3 = true) by congruence.
      destruct (IH _ s3 Hqj3' Hrun) as [rounds [Hne [Hok [Hmore [Ht Ha]]]]].
      exists (r :: rounds). split; [congruence|]. split; [constructor; [exact Hrok|]|].
      { rewrite Hq3, Hq2, Hq1 in Hok. exact Hok. }
      split.
      * simpl. rewrite Hmore. destruct rounds; [congruence|]. simpl.
        rewrite Nat.sub_0_r. reflexivity.
      * rewrite Hq3, Hq2, Hq1, Hc3, Hc2, Hc1 in Ht. rewrite Ha3, Ha2, Ha1 in Ha.
        split.
        -- rewrite Ht, Htr3. simpl. rewrite <- !app_assoc. reflexivity.
        -- rewrite Ha. simpl. rewrite <- !app_assoc. reflexivity.
    + unfold queue_jobs_loop in Hrun. destruct fuel; unfold bind, get in Hrun;
        rewrite andb_false_r in Hrun;
        destruct (start_jobs_spec ops (ready ++ map QueueJob (concat jss)) s3)
          as [s4 [Hr4 [Ht4 [Ha4 _]]]];
        rewrite Hr4 in Hrun; injection Hrun as <-;
        exists [r]; (split; [congruence|]); (split; [constructor; [exact Hrok | constructor]|]);
        (split; [reflexivity|]); simpl; rewrite !app_nil_r;
        (split; [rewrite Ht4, Htr3, Hc3, Hc2, Hc1; rewrite <- !app_assoc; reflexivity
                |rewrite Ha4, Ha3, Ha2, Ha1; reflexivity]).
Qed.

(** C2: a run of [_sched_queue_jobs] with [_queue_jobs] set makes one or
    more iterations. Each iteration walks the queues in order, calling
    [enqueue] with what the previous queue's [dequeue()] just gave out
    (an empty list for the first queue), then calls [harvest_jobs()] on
    every queue in reverse order and appends the jobs in that order, then
    asks [dequeue_ready()] in queue order up to the first true answer;
    the loop goes round again exactly when some queue answered true.
    Afterwards every collected job is started, in list order. *)
Theorem sched_queue_jobs_spec (fuel : nat) (s s' : Sched) :
  _queue_jobs s = true ->
  _sched_queue_jobs ops fuel s = inr (tt, s') ->
  exists rounds : list round,
    rounds <> [] /\ Forall (round_ok (queues s)) rounds /\
    map r_more rounds = repeat true (length rounds - 1) ++ [false] /\
    trace s' = trace s ++ concat (map (round_events (queues s)) rounds) ++
               start_events (bool_decide (_job_start_callback s <> None))
                 (concat (map round_harvest rounds)) /\
    _active_jobs s' = _active_jobs s ++ concat (map round_harvest rounds).
Proof.
  intros Hqj Hrun. apply (queue_jobs_loop_spec fuel [] s s' Hqj Hrun).
Qed.

End QueueLoopTheorem.

Section StopQueueingProperties.
Context {W Q E J : Type} `{EqDecision J} (ops : Ops W Q E J).

Local Abbreviation Sched := (Scheduler W Q E J).

(** The jobs the cache-maintenance schedulers start. *)
Definition maintenance_job (job : Job J) : Prop :=
  job = CacheSizeJob \/ job = CleanupJob.

(** The calls a scheduling round may make without touching a queue. *)
Definition maintenance_event (ev : event Q E J) : Prop :=
  match ev with
  | EvJobStartCallback job | EvJobStart job => maintenance_job job
  | EvLoopStop => True
  | _ => False
  end.

(** [n] scheduling rounds one after the other. *)
Fixpoint sched_rounds (fuel n : nat) : M Sched unit :=
  match n with
  | O => ret tt
  | S n' => _sched ops fuel ;;; sched_rounds fuel n'
  end.

(** From [s] to [s1] the flag is kept, and only maintenance jobs are
    started, with only maintenance calls. *)
Definition maint_step (s s1 : Sched) : Prop :=
  _queue_jobs s1 = _queue_jobs s /\
  exists evs new, trace s1 = trace s ++ evs /\ Forall maintenance_event evs /\
    _active_jobs s1 = _active_jobs s ++ new /\ Forall maintenance_job new.

Lemma maint_step_refl (s : Sched) : maint_step s s.
Proof. split; [reflexivity|]. exists [], []. rewrite !app_nil_r. repeat split; constructor. Qed.

Lemma maint_step_trans (s s1 s2 : Sched) :
  maint_step s s1 -> maint_step s1 s2 -> maint_step s s2.
Proof.
  intros [Hq1 (evs1 & new1 & Ht1 & He1 & Ha1 & Hn1)] [Hq2 (evs2 & new2 & Ht2 & He2 & Ha2 & Hn2)].
  split; [congruence|]. exists (evs1 ++ evs2), (new1 ++ new2).
  rewrite Ht2, Ht1, Ha2, Ha1, <- !app_assoc.
  repeat split; try reflexivity; apply Forall_app; auto.
Qed.

Lemma bind_inr {S A B} (m : M S A) (k : A -> M S B) (s : S) r :
  bind m k s = inr r -> exists a s1, m s = inr (a, s1) /\ k a s1 = inr r.
Proof. unfold bind. destruct (m s) as [e|[a s1]]; [discriminate|]. eauto. Qed.

Lemma start_job_maint (job : Job J) (s s' : Sched) :
  maintenance_job job -> _start_job ops job s = inr (tt, s') -> maint_step s s'.
Proof.
  intros Hj. unfold _start_job, bind, get, put, call_, ret. simpl.
  destruct (_job_start_callback s) as [cb|]; simpl; intros [= <-]; split; try reflexivity.
  - exists [EvJobStartCallback job; EvJobStart job], [job]. simpl.
    split; [rewrite <- app_assoc; reflexivity|].
    split; [constructor; [exact Hj|constructor; [exact Hj|constructor]]|].
    split; [reflexivity|constructor; [exact Hj|constructor]].
  - exists [EvJobStart job], [job]. simpl.
    split; [reflexivity|]. split; [constructor; [exact Hj|constructor]|].
    split; [reflexivity|constructor; [exact Hj|constructor]].
Qed.

(** Changing the resources or the maintenance fields is a maintenance step. *)
Lemma maint_step_frame (s s1 : Sched) :
  _queue_jobs s1 = _queue_jobs s -> trace s1 = trace s ->
  _active_jobs s1 = _active_jobs s -> maint_step s s1.
Proof.
  intros Hq Ht Ha. split; [exact Hq|]. exists [], [].
  rewrite Ht, Ha, !app_nil_r. repeat split; constructor.
Qed.

Lemma sched_cleanup_maint (s s' : Sched) :
  _sched_cleanup_job ops s = inr (tt, s') -> maint_step s s'.
Proof.
  unfold _sched_cleanup_job, bind at 1, get.
  destruct (_cleanup_scheduled s && _); [|unfold ret; intros [= <-]; apply maint_step_refl].
  destruct (reserve _ _ _) as [ok r'].
  unfold bind at 1, put. destruct ok; [|unfold ret; intros [= <-];
    apply maint_step_frame; reflexivity].
  unfold bind, modify. intros Hs.
  eapply maint_step_trans; [|eapply start_job_maint; [right; reflexivity|exact Hs]].
  apply maint_step_frame; reflexivity.
Qed.

Lemma sched_cache_size_maint (s s' : Sched) :
  _sched_cache_size_job ops false s = inr (tt, s') -> maint_step s s'.
Proof.
  unfold _sched_cache_size_job, bind at 1 2, ret at 1, get.
  destruct (_cache_size_scheduled s && _); [|unfold ret; intros [= <-]; apply maint_step_refl].
  destruct (reserve _ _ _) as [ok r'].
  unfold bind at 1, put. destruct ok; [|unfold ret; intros [= <-];
    apply maint_step_frame; reflexivity].
  unfold bind, modify. intros Hs.
  eapply maint_step_trans; [|eapply start_job_maint; [left; reflexivity|exact Hs]].
  apply maint_step_frame; reflexivity.
Qed.

Lemma sched_queue_jobs_stopped (fuel : nat) (s : Sched) :
  _queue_jobs s = false -> _sched_queue_jobs ops fuel s = inr (tt, s).
Proof.
  intros Hq. unfold _sched_queue_jobs. destruct fuel; cbn [queue_jobs_loop];
    unfold bind at 1, get; rewrite Hq; reflexivity.
Qed.

Lemma sched_maint (fuel : nat) (s s' : Sched) :
  _queue_jobs s = false -> _sched ops fuel s = inr (tt, s') -> maint_step s s'.
Proof.
  intros Hq Hs. unfold _sched in Hs.
  apply bind_inr in Hs as (x & s0 & Hs0 & Hs). unfold get in Hs0. injection Hs0 as <- <-.
  apply bind_inr in Hs as ([] & s1 & Hs1 & Hs).
  assert (H1 : maint_step s s1).
  { destruct (terminated s).
    - unfold ret in Hs1. injection Hs1 as <-. apply maint_step_refl.
    - apply bind_inr in Hs1 as ([] & s2 & Hs2 & Hs1).
      apply bind_inr in Hs1 as ([] & s3 & Hs3 & Hs1).
      apply sched_cleanup_maint in Hs2. apply sched_cache_size_maint in Hs3.
      assert (Hq3 : _queue_jobs s3 = false) by (destruct Hs2, Hs3; congruence).
      rewrite sched_queue_jobs_stopped in Hs1 by exact Hq3. injection Hs1 as <-.
      eapply maint_step_trans; eauto. }
  apply bind_inr in Hs as (x & s2 & Hs2 & Hs). unfold get in Hs2. injection Hs2 as <- <-.
  destruct (_active_jobs s1).
  - unfold modify in Hs. injection Hs as <-. eapply maint_step_trans; [exact H1|].
    split; [reflexivity|]. exists [EvLoopStop], []. simpl. rewrite app_nil_r.
    repeat split; repeat constructor.
  - unfold ret in Hs. injection Hs as <-. exact H1.
Qed.

Lemma sched_rounds_maint (fuel n : nat) (s s' : Sched) :
  _queue_jobs s = false -> sched_rounds fuel n s = inr (tt, s') -> maint_step s s'.
Proof.
  revert s. induction n as [|n IH]; intros s Hq Hs; simpl in Hs.
  - unfold ret in Hs. injection Hs as <-. apply maint_step_refl.
  - apply bind_inr in Hs as ([] & s1 & Hs1 & Hs).
    pose proof (sched_maint fuel s s1 Hq Hs1) as H1.
    eapply maint_step_trans; [exact H1|]. apply IH; [|exact Hs].
    destruct H1; congruence.
Qed.

End StopQueueingProperties.

Section StopQueueingTheorem.
Context {W Q E J : Type} `{EqDecision J} (ops : Ops W Q E J).

(** A scheduler with nothing running, one token of each resource, the
    given maintenance flags and queue processing still on. *)
Definition idle_sched (qs : list Q) (cache_size cleanup : bool) (w : W)
  : Scheduler W Q E J :=
  mkScheduler qs false [] true cache_size None cleanup None None None
    demo_resources w [].

(** C10: [stop_queueing()] turns the flag off, and from then on no run of
    [_sched] starts a queue job or calls a queue: only the cache-size and
    cleanup jobs are started (with their callbacks), and at most the
    loop is stopped. Yet a pending cleanup job, or a pending cache-size
    job, is still started by the next [_sched] after [stop_queueing()]. *)
Theorem stop_queueing_spec (fuel n : nat) :
  (forall s : Scheduler W Q E J, stop_queueing s = inr (tt, set_queue_jobs false s)) /\
  (forall s s' : Scheduler W Q E J,
     (stop_queueing ;;; sched_rounds ops fuel n) s = inr (tt, s') ->
     _queue_jobs s' = false /\
     exists evs new, trace s' = trace s ++ evs /\ Forall maintenance_event evs /\
       _active_jobs s' = _active_jobs s ++ new /\ Forall maintenance_job new) /\
  (forall (qs : list Q) (w : W), exists s',
     (stop_queueing ;;; _sched ops fuel) (idle_sched qs false true w) = inr (tt, s') /\
     In CleanupJob (_active_jobs s')) /\
  (forall (qs : list Q) (w : W), exists s',
     (stop_queueing ;;; _sched ops fuel) (idle_sched qs true false w) = inr (tt, s') /\
     In CacheSizeJob (_active_jobs s')).
Proof.
  split; [reflexivity|]. split; [|split].
  - intros s s' Hs. apply bind_inr in Hs as ([] & s1 & Hs1 & Hs).
    unfold stop_queueing, modify in Hs1. injection Hs1 as <-.
    destruct (sched_rounds_maint ops fuel n (set_queue_jobs false s) s' eq_refl Hs) as [Hq (evs & new & Ht & He & Ha & Hn)].
    split; [exact Hq|]. exists evs, new. auto.
  - intros qs w. destruct fuel; eexists; (split; [reflexivity|]); simpl; auto.
  - intros qs w. destruct fuel; eexists; (split; [reflexivity|]); simpl; auto.
Qed.

End StopQueueingTheorem.

(** * Counterexamples and witnesses *)

(** C3 counterexample: the cache is full when the cache-size job ends
    with a failure, and no cleanup is scheduled. *)
Lemma cache_size_job_failed_no_cleanup :
  artifacts_full demo_ops (world demo_sched) = true /\
  match _cache_size_job_complete demo_ops JobFAIL 0 demo_sched with
  | inr (_, s') => _cleanup_scheduled s' = false
  | inl _ => False
  end.
Proof. split; vm_compute; reflexivity. Qed.

Lemma sched_queue_jobs_spec_witness :
  _queue_jobs demo_sched = true /\
  exists s', _sched_queue_jobs demo_ops 10 demo_sched = inr (tt, s') /\
    exists rounds, rounds <> [] /\
      _active_jobs s' = _active_jobs demo_sched ++ concat (map (round_harvest (E:=nat)) rounds).
Proof.
  split; [reflexivity|].
  destruct (_sched_queue_jobs demo_ops 10 demo_sched) as [e|[[] s']] eqn:Hrun;
    [vm_compute in Hrun; discriminate|].
  exists s'. split; [reflexivity|].
  destruct (sched_queue_jobs_spec demo_ops 10 demo_sched s' eq_refl Hrun)
    as (rounds & Hne & _ & _ & _ & Ha).
  exists rounds. split; assumption.
Defined.

Lemma job_completed_none_callback_witness :
  In (QueueJob 7%nat) (_active_jobs demo_sched_running) /\
  _job_complete_callback demo_sched_running = None /\
  job_completed demo_ops 3 (QueueJob 7%nat) JobOK demo_sched_running = inl TypeError.
Proof.
  split; [simpl; left; reflexivity|]. split; [reflexivity|].
  apply (job_completed_none_callback demo_ops 3 (QueueJob 7%nat) JobOK demo_sched_running).
  - simpl. left. reflexivity.
  - reflexivity.
Defined.

Lemma plugin_unregister_after_register_witness :
  exists r', PluginRegistry._plugin_register 42%nat PluginRegistry.initial_registry = inr (1, r') /\
    PluginRegistry._plugin_unregister 1 r' = inl KeyError.
Proof.
  destruct (plugin_unregister_after_register PluginRegistry.initial_registry 42%nat)
    as (r' & H1 & _ & _ & H4).
  - intros k. reflexivity.
  - exists r'. split; [exact H1 | exact H4].
Defined.

Lemma get_stub_times_out_witness :
  exists fuel,
    Casd.get_cas demo_casd_ops fuel demo_channel (mkDemoCasd None 0 (10 ^ 12), []) = inl CASCacheError /\
    Casd.get_local_cas demo_casd_ops fuel demo_channel (mkDemoCasd None 0 (10 ^ 12), []) = inl CASCacheError /\
    Casd.get_bytestream demo_casd_ops fuel demo_channel (mkDemoCasd None 0 (10 ^ 12), []) = inl CASCacheError.
Proof.
  assert (Hclock : forall n, after_sleeps demo_casd_ops n (mkDemoCasd None 0 (10 ^ 12)) =
                             mkDemoCasd None (10000 * Z.of_nat n) (10 ^ 12)).
  { induction n as [|n IH]; [reflexivity|].
    simpl. change (Nat.iter n _ _) with (after_sleeps demo_casd_ops n (mkDemoCasd None 0 (10 ^ 12))).
    rewrite IH. simpl. f_equal. lia. }
  destruct (get_stub_times_out demo_casd_ops demo_channel (mkDemoCasd None 0 (10 ^ 12)) []) as [fuel Hf].
  - reflexivity.
  - intros w. simpl. lia.
  - intros n Hn. rewrite Hclock. simpl. apply bool_decide_eq_false_2.
    destruct n as [|n]; [simpl; lia|].
    specialize (Hn n ltac:(lia)). rewrite Hclock in Hn. simpl in Hn. lia.
  - exists fuel. apply Hf. lia.
Defined.

Lemma release_resources_already_exited_witness :
  demo_return_code (mkDemoCasd (Some 3) 0 0) = Some 3 /\
  Casd.release_resources demo_casd_ops true (mkDemoCasd (Some 3) 0 0, []) =
    inr (tt, (mkDemoCasd (Some 3) 0 0,
              [Casd.CEvPoll (Some 3); Casd.CEvMessage Casd.BUG (Some 3); Casd.CEvRmtree])).
Proof.
  split; [reflexivity|].
  apply (release_resources_already_exited demo_casd_ops (mkDemoCasd (Some 3) 0 0) [] 3).
  reflexivity.
Defined.

Lemma log_rotation_spec_witness :
  Some demo_logs = Some demo_logs /\
  Casd._rotate_and_get_next_logfile "400" (Some demo_logs) =
    (Some (list_to_set (drop 0 (Casd.sorted (elements demo_logs)))),
     take 0 (Casd.sorted (elements demo_logs)), "400.log"%string).
Proof.
  split; [reflexivity|].
  apply (proj1 (proj2 (proj2 (log_rotation_spec "400" (Some demo_logs))) demo_logs eq_refl)).
Defined.

Lemma stop_queueing_spec_witness :
  exists s', (stop_queueing ;;; sched_rounds demo_ops 3 2) demo_sched = inr (tt, s') /\
    _queue_jobs s' = false.
Proof.
  destruct ((stop_queueing ;;; sched_rounds demo_ops 3 2) demo_sched) as [e|[[] s']] eqn:Hrun;
    [vm_compute in Hrun; discriminate|].
  exists s'. split; [reflexivity|].
  apply (proj1 (proj2 (stop_queueing_spec demo_ops 3 2)) demo_sched s' Hrun).
Defined.

(** * Further properties of the scheduler *)

Section SchedulerExtras.
Context {W Q E J : Type} `{EqDecision J} (ops : Ops W Q E J).

Local Abbreviation Sched := (Scheduler W Q E J).

Lemma list_remove_not_in (job : Job J) (l : list (Job J)) :
  ~ In job l -> list_remove job l = None.
Proof.
  induction l as [|y l IH]; simpl; intros Hn; [reflexivity|].
  rewrite decide_False by (intros ->; tauto). rewrite IH by tauto. reflexivity.
Qed.

Lemma list_remove_first (job : Job J) (pre post : list (Job J)) :
  ~ In job pre -> list_remove job (pre ++ job :: post) = Some (pre ++ post).
Proof.
  induction pre as [|y pre IH]; simpl; intros Hn.
  - rewrite decide_True by reflexivity. reflexivity.
  - rewrite decide_False by (intros ->; tauto). rewrite IH by tauto. reflexivity.
Qed.




(** How a step leaves the maintenance fields. *)
Definition maint_fields_kept (s s1 : Sched) : Prop :=
  terminated s1 = terminated s /\
  _cache_size_scheduled s1 = _cache_size_scheduled s /\
  _cache_size_running s1 = _cache_size_running s /\
  _cleanup_scheduled s1 = _cleanup_scheduled s /\
  _cleanup_running s1 = _cleanup_running s /\
  _queue_jobs s1 = _queue_jobs s /\ queues s1 = queues s.

Lemma maint_fields_kept_refl (s : Sched) : maint_fields_kept s s.
Proof. repeat split. Qed.

Lemma maint_fields_kept_trans (s s1 s2 : Sched) :
  maint_fields_kept s s1 -> maint_fields_kept s1 s2 -> maint_fields_kept s s2.
Proof. intros (?&?&?&?&?&?&?) (?&?&?&?&?&?&?). repeat split; congruence. Qed.

(** Whether a job came from a queue. *)
Definition is_queue_job (job : Job J) : Prop := exists j, job = QueueJob j.

Lemma start_job_fields (job : Job J) (s s1 : Sched) :
  _start_job ops job s = inr (tt, s1) ->
  maint_fields_kept s s1 /\ _active_jobs s1 = _active_jobs s ++ [job].
Proof.
  unfold _start_job, bind, get, put, call_, ret. simpl.
  destruct (_job_start_callback s); simpl; intros [= <-]; repeat split.
Qed.

Lemma start_jobs_fields (ready : list (Job J)) (s s1 : Sched) :
  start_jobs ops ready s = inr (tt, s1) ->
  maint_fields_kept s s1 /\ _active_jobs s1 = _active_jobs s ++ ready.
Proof.
  revert s. induction ready as [|job ready IH]; intros s Hs; simpl in Hs.
  - injection Hs as <-. rewrite app_nil_r. split; [apply maint_fields_kept_refl|reflexivity].
  - unfold bind at 1 in Hs. destruct (_start_job ops job s) as [e|[[] s0]] eqn:H0; [discriminate|].
    apply start_job_fields in H0 as [Hk0 Ha0]. destruct (IH s0 Hs) as [Hk1 Ha1].
    split; [eapply maint_fields_kept_trans; eauto|]. rewrite Ha1, Ha0, <- app_assoc. reflexivity.
Qed.

Lemma pull_forward_fields (qs : list Q) (elements : list E) (s s1 : Sched) :
  pull_forward ops qs elements s = inr (tt, s1) ->
  maint_fields_kept s s1 /\ _active_jobs s1 = _active_jobs s.
Proof.
  revert elements s. induction qs as [|q qs IH]; intros elements s Hs; simpl in Hs.
  - injection Hs as <-. split; [apply maint_fields_kept_refl|reflexivity].
  - unfold bind, call, call_ in Hs. simpl in Hs.
    destruct (q_dequeue ops q (q_enqueue ops q elements (world s))) as [w2 out].
    destruct (IH _ _ Hs) as [Hk Ha]. split; [|exact Ha].
    eapply maint_fields_kept_trans; [|exact Hk]. repeat split.
Qed.

Lemma harvest_all_fields (qs : list Q) (s s1 : Sched) jobs :
  harvest_all ops qs s = inr (jobs, s1) ->
  maint_fields_kept s s1 /\ _active_jobs s1 = _active_jobs s /\ Forall is_queue_job jobs.
Proof.
  revert s jobs. induction qs as [|q qs IH]; intros s jobs Hs; simpl in Hs.
  - injection Hs as <- <-. split; [apply maint_fields_kept_refl|]. split; [reflexivity|constructor].
  - unfold bind, call, ret in Hs. simpl in Hs.
    destruct (q_harvest_jobs ops q (world s)) as [w1 js].
    destruct (harvest_all ops qs _) as [e|[rest s2]] eqn:Hr; [discriminate|].
    injection Hs as <- <-. destruct (IH _ _ Hr) as (Hk & Ha & Hf). split; [|split; [exact Ha|]].
    + eapply maint_fields_kept_trans; [|exact Hk]. repeat split.
    + apply Forall_app. split; [|exact Hf]. clear.
      induction js as [|j js IHjs]; simpl; constructor; [exists j; reflexivity|exact IHjs].
Qed.

Lemma any_dequeue_ready_fields (qs : list Q) (s s1 : Sched) b :
  any_dequeue_ready ops qs s = inr (b, s1) ->
  maint_fields_kept s s1 /\ _active_jobs s1 = _active_jobs s.
Proof.
  revert s. induction qs as [|q qs IH]; intros s Hs; simpl in Hs.
  - injection Hs as _ <-. split; [apply maint_fields_kept_refl|reflexivity].
  - unfold bind, call in Hs. simpl in Hs.
    destruct (q_dequeue_ready ops q (world s)) as [w1 []].
    + unfold ret in Hs. injection Hs as _ <-. repeat split.
    + destruct (IH _ Hs) as [Hk Ha]. split; [|exact Ha].
      eapply maint_fields_kept_trans; [|exact Hk]. repeat split.
Qed.

Lemma queue_jobs_loop_fields (fuel : nat) (b : bool) (ready : list (Job J)) (s s1 : Sched) :
  Forall is_queue_job ready ->
  queue_jobs_loop ops fuel b ready s = inr (tt, s1) ->
  maint_fields_kept s s1 /\
  exists new, _active_jobs s1 = _active_jobs s ++ new /\ Forall is_queue_job new.
Proof.
  revert b ready s. induction fuel as [|fuel IH]; intros b ready s Hr Hs.
  - unfold queue_jobs_loop, bind at 1, get in Hs.
    destruct (_queue_jobs s && b); [discriminate|].
    apply start_jobs_fields in Hs as [Hk Ha]. split; [exact Hk|]. exists ready. auto.
  - unfold queue_jobs_loop in Hs. fold (queue_jobs_loop ops fuel) in Hs.
    unfold bind at 1, get in Hs.
    destruct (_queue_jobs s && b);
      [|apply start_jobs_fields in Hs as [Hk Ha]; split; [exact Hk|]; exists ready; auto].
    unfold bind at 1 in Hs. destruct (pull_forward ops (queues s) [] s) as [e|[[] s0]] eqn:H0;
      [discriminate|].
    unfold bind at 1 in Hs. destruct (harvest_all ops (rev (queues s)) s0) as [e|[hv s2]] eqn:H2;
      [discriminate|].
    unfold bind at 1 in Hs. destruct (any_dequeue_ready ops (queues s) s2) as [e|[b' s3]] eqn:H3;
      [discriminate|].
    apply pull_forward_fields in H0 as [Hk0 Ha0].
    apply harvest_all_fields in H2 as (Hk2 & Ha2 & Hf2).
    apply any_dequeue_ready_fields in H3 as [Hk3 Ha3].
    destruct (IH b' (ready ++ hv) s3) as [Hk4 (new & Ha4 & Hf4)];
      [apply Forall_app; auto | exact Hs |].
    split.
    + eapply maint_fields_kept_trans; [|exact Hk4].
      eapply maint_fields_kept_trans; [exact Hk0|].
      eapply maint_fields_kept_trans; [exact Hk2|exact Hk3].
    + exists new. split; [congruence|exact Hf4].
Qed.

(** How many times [job] occurs in [l]. *)
Definition count_job (job : Job J) (l : list (Job J)) : nat :=
  length (filter (fun x => x = job) l).

Lemma count_job_app (job : Job J) (l1 l2 : list (Job J)) :
  count_job job (l1 ++ l2) = (count_job job l1 + count_job job l2)%nat.
Proof. unfold count_job. rewrite filter_app, length_app. reflexivity. Qed.

Lemma count_job_queue_jobs (job : Job J) (l : list (Job J)) :
  ~ is_queue_job job -> Forall is_queue_job l -> count_job job l = 0%nat.
Proof.
  intros Hj Hl. unfold count_job. induction Hl as [|x l Hx Hl IH]; [reflexivity|].
  rewrite filter_cons. destruct (decide (x = job)) as [->|]; [contradiction|exact IH].
Qed.

Lemma count_job_single (job x : Job J) :
  count_job job [x] = if decide (x = job) then 1%nat else 0%nat.
Proof. unfold count_job. rewrite filter_cons. destruct (decide (x = job)); reflexivity. Qed.

(** What the cleanup step did: nothing to the cleanup fields and the
    active jobs, or it started the one cleanup job. *)
Definition cleanup_step (s s1 : Sched) : Prop :=
  terminated s1 = terminated s /\
  _cache_size_scheduled s1 = _cache_size_scheduled s /\
  _cache_size_running s1 = _cache_size_running s /\
  _queue_jobs s1 = _queue_jobs s /\ queues s1 = queues s /\
  ((_active_jobs s1 = _active_jobs s /\ _cleanup_scheduled s1 = _cleanup_scheduled s /\
    _cleanup_running s1 = _cleanup_running s) \/
   (_active_jobs s1 = _active_jobs s ++ [CleanupJob] /\
    _cleanup_scheduled s = true /\ _cleanup_running s = None /\
    _cleanup_scheduled s1 = false /\ _cleanup_running s1 = Some CleanupJob)).

Lemma sched_cleanup_step (s s1 : Sched) :
  _sched_cleanup_job ops s = inr (tt, s1) -> cleanup_step s s1.
Proof.
  unfold _sched_cleanup_job, bind at 1, get.
  destruct (_cleanup_scheduled s) eqn:Hcs; simpl;
    [|unfold ret; intros [= <-]; repeat split; left; repeat split].
  destruct (_cleanup_running s) as [j|] eqn:Hcr; simpl;
    [unfold ret; intros [= <-]; repeat split; left; repeat split|].
  destruct (reserve _ _ _) as [ok r']. unfold bind at 1, put.
  destruct ok; [|unfold ret; intros [= <-]; repeat split; left; repeat split].
  unfold bind, modify. intros Hs. apply start_job_fields in Hs as [(Ht&Hcs1&Hcr1&Hcl&Hclr&Hq&Hqs) Ha].
  simpl in *. repeat split; try congruence. right. repeat split; congruence.
Qed.

Definition cache_size_step (s s1 : Sched) : Prop :=
  terminated s1 = terminated s /\
  _cleanup_scheduled s1 = _cleanup_scheduled s /\
  _cleanup_running s1 = _cleanup_running s /\
  _queue_jobs s1 = _queue_jobs s /\ queues s1 = queues s /\
  ((_active_jobs s1 = _active_jobs s /\ _cache_size_scheduled s1 = _cache_size_scheduled s /\
    _cache_size_running s1 = _cache_size_running s) \/
   (_active_jobs s1 = _active_jobs s ++ [CacheSizeJob] /\
    _cache_size_scheduled s = true /\ _cache_size_running s = None /\
    _cache_size_scheduled s1 = false /\ _cache_size_running s1 = Some CacheSizeJob)).

Lemma sched_cache_size_step (s s1 : Sched) :
  _sched_cache_size_job ops false s = inr (tt, s1) -> cache_size_step s s1.
Proof.
  unfold _sched_cache_size_job, bind at 1 2, ret at 1, get.
  destruct (_cache_size_scheduled s) eqn:Hcs; simpl;
    [|unfold ret; intros [= <-]; repeat split; left; repeat split].
  destruct (_cache_size_running s) as [j|] eqn:Hcr; simpl;
    [unfold ret; intros [= <-]; repeat split; left; repeat split|].
  destruct (reserve _ _ _) as [ok r']. unfold bind at 1, put.
  destruct ok; [|unfold ret; intros [= <-]; repeat split; left; repeat split].
  unfold bind, modify. intros Hs. apply start_job_fields in Hs as [(Ht&Hcs1&Hcr1&Hcl&Hclr&Hq&Hqs) Ha].
  simpl in *. repeat split; try congruence. right. repeat split; congruence.
Qed.

Lemma not_queue_job_cleanup : ~ is_queue_job (@CleanupJob J).
Proof. intros [j Hj]. discriminate. Qed.

Lemma not_queue_job_cache_size : ~ is_queue_job (@CacheSizeJob J).
Proof. intros [j Hj]. discriminate. Qed.

(** X3: a run of [_sched] starts at most one cleanup job and at most one
    cache-size job, and starts one only when it was scheduled and none of
    its kind was running; it then records it as running and clears the
    scheduled flag. Otherwise these fields are left as they were. *)
Theorem sched_maintenance_at_most_one (fuel : nat) (s s' : Sched) :
  _sched ops fuel s = inr (tt, s') ->
  ((count_job CleanupJob (_active_jobs s') = count_job CleanupJob (_active_jobs s) /\
    _cleanup_scheduled s' = _cleanup_scheduled s /\ _cleanup_running s' = _cleanup_running s) \/
   (count_job CleanupJob (_active_jobs s') = S (count_job CleanupJob (_active_jobs s)) /\
    terminated s = false /\ _cleanup_scheduled s = true /\ _cleanup_running s = None /\
    _cleanup_scheduled s' = false /\ _cleanup_running s' = Some CleanupJob)) /\
  ((count_job CacheSizeJob (_active_jobs s') = count_job CacheSizeJob (_active_jobs s) /\
    _cache_size_scheduled s' = _cache_size_scheduled s /\
    _cache_size_running s' = _cache_size_running s) \/
   (count_job CacheSizeJob (_active_jobs s') = S (count_job CacheSizeJob (_active_jobs s)) /\
    terminated s = false /\ _cache_size_scheduled s = true /\ _cache_size_running s = None /\
    _cache_size_scheduled s' = false /\ _cache_size_running s' = Some CacheSizeJob)).
Proof.
  intros Hs. unfold _sched in Hs.
  apply bind_inr in Hs as (x & s0 & Hs0 & Hs). unfold get in Hs0. injection Hs0 as <- <-.
  apply bind_inr in Hs as ([] & s1 & Hs1 & Hs).
  assert (Hlast : s' = s1 \/ s' = set_world_log (world s1) EvLoopStop s1).
  { apply bind_inr in Hs as (x & s2 & Hs2 & Hs). unfold get in Hs2. injection Hs2 as <- <-.
    destruct (_active_jobs s1); unfold modify, ret in Hs; injection Hs as <-; auto. }
  assert (Hs' : _active_jobs s' = _active_jobs s1 /\ maint_fields_kept s1 s')
    by (destruct Hlast as [->| ->]; split; [reflexivity|apply maint_fields_kept_refl|
                                           reflexivity|repeat split]).
  destruct Hs' as [Ha' (Ht'&Hcs'&Hcr'&Hcl'&Hclr'&_&_)].
  rewrite Ha', Hcs', Hcr', Hcl', Hclr'. clear Hs Hlast Ha' Hcs' Hcr' Hcl' Hclr' Ht'.
  destruct (terminated s) eqn:Hterm.
  - unfold ret in Hs1. injection Hs1 as <-. split; left; repeat split.
  - apply bind_inr in Hs1 as ([] & s2 & Hs2 & Hs1).
    apply bind_inr in Hs1 as ([] & s3 & Hs3 & Hs1).
    apply sched_cleanup_step in Hs2 as (Ht2 & Hcs2 & Hcr2 & Hq2 & Hqs2 & Hc2).
    apply sched_cache_size_step in Hs3 as (Ht3 & Hcl3 & Hclr3 & Hq3 & Hqs3 & Hc3).
    unfold _sched_queue_jobs in Hs1.
    apply queue_jobs_loop_fields in Hs1 as [(Ht4&Hcs4&Hcr4&Hcl4&Hclr4&_&_) (new & Ha4 & Hf4)];
      [|constructor].
    rewrite Ha4, Hcs4, Hcr4, Hcl4, Hclr4, !count_job_app.
    rewrite (count_job_queue_jobs CleanupJob new not_queue_job_cleanup Hf4).
    rewrite (count_job_queue_jobs CacheSizeJob new not_queue_job_cache_size Hf4).
    rewrite !Nat.add_0_r, Hcl3, Hclr3.
    assert (Hcc : count_job (@CleanupJob J) [CacheSizeJob] = 0%nat)
      by (rewrite count_job_single, decide_False by discriminate; reflexivity).
    assert (Hsc : count_job (@CacheSizeJob J) [CleanupJob] = 0%nat)
      by (rewrite count_job_single, decide_False by discriminate; reflexivity).
    assert (Hcc1 : count_job (@CleanupJob J) [CleanupJob] = 1%nat)
      by (rewrite count_job_single, decide_True by reflexivity; reflexivity).
    assert (Hss1 : count_job (@CacheSizeJob J) [CacheSizeJob] = 1%nat)
      by (rewrite count_job_single, decide_True by reflexivity; reflexivity).
    destruct Hc2 as [(Ha2 & Hs2 & Hr2) | (Ha2 & Hs2 & Hr2 & Hs2' & Hr2')];
    destruct Hc3 as [(Ha3 & Hs3 & Hr3) | (Ha3 & Hs3 & Hr3 & Hs3' & Hr3')];
    rewrite Ha3, ?Ha2, ?count_job_app, ?Hcc, ?Hsc, ?Hcc1, ?Hss1, ?Nat.add_0_r;
    (split; [first [left; repeat split; congruence
                   |right; repeat split; try congruence; lia]
            |first [left; repeat split; congruence
                   |right; repeat split; try congruence; lia]]).
Qed.

End SchedulerExtras.

Section SchedulerTimeProperties.
Import SchedulerTime.
Context {J : Type}.

(** X5: suspending (once, or again while suspended) and then resuming
    signals each active job once to suspend and once to resume, and the
    session time from then on leaves out the time since the first
    suspension. *)
Theorem suspend_resume_discounts (s : State J) (st t1 t1' t2 : Z) :
  suspended s = false -> _starttime s = Some st ->
  exists s',
    (_suspend_jobs t1 ;;; _suspend_jobs t1' ;;; _resume_jobs t2) s = inr (tt, s') /\
    suspended s' = false /\ _suspendtime s' = None /\
    _active_jobs s' = _active_jobs s /\
    calls s' = calls s ++ map JobSuspend (_active_jobs s) ++ map JobResume (_active_jobs s) /\
    forall t3, elapsed_time t3 s' = t3 - st - (t2 - t1).
Proof.
  intros Hs Hst. unfold _suspend_jobs, _resume_jobs, bind, modify, get, put. simpl.
  rewrite Hs. simpl. rewrite Hst. eexists. split; [reflexivity|].
  simpl. repeat split. - rewrite <- app_assoc. reflexivity.
  - intros t3. unfold elapsed_time. simpl. lia.
Qed.

(** X6: [_suspend_event] with pending internal stops only uses one of
    them up and leaves the jobs alone; with none, it suspends and then
    resumes every active job, and the time the process was stopped is
    left out of the session time. *)
Theorem suspend_event_spec (s : State J) (t_stop t_cont : Z) :
  (internal_stops s <> 0 ->
   _suspend_event t_stop t_cont s =
     inr (tt, mkState (suspended s) (internal_stops s - 1) (_starttime s) (_suspendtime s)
                (_active_jobs s) (calls s))) /\
  (internal_stops s = 0 -> suspended s = false -> forall st, _starttime s = Some st ->
   exists s', _suspend_event t_stop t_cont s = inr (tt, s') /\
     internal_stops s' = 0 /\ suspended s' = false /\
     calls s' = calls s ++ map JobSuspend (_active_jobs s) ++ map JobResume (_active_jobs s) /\
     forall t, elapsed_time t s' = t - st - (t_cont - t_stop)).
Proof.
  split.
  - intros Hn. unfold _suspend_event, bind, get. rewrite bool_decide_true by exact Hn. reflexivity.
  - intros Hn Hs st Hst. unfold _suspend_event, _suspend_jobs, _resume_jobs, bind, get, modify, put.
    rewrite bool_decide_false by (intros Hc; apply Hc; exact Hn). rewrite Hs. simpl. rewrite Hst.
    eexists. split; [reflexivity|]. simpl. repeat split; [exact Hn|rewrite <- app_assoc; reflexivity|].
    intros t. unfold elapsed_time. simpl. lia.
Qed.


End SchedulerTimeProperties.

Section SignalProperties.
Import SchedulerSignals.


End SignalProperties.

Section CasdExtras.
Import Casd.
Context {W : Type} (cops : CasdOps W).

(** The events of [_terminate(messenger)] that go to the messenger. *)
Definition messenger_event (e : cevent) : bool :=
  match e with
  | CEvMessage _ _ | CEvActivityStart | CEvActivityEnd => true
  | _ => false
  end.

(** The four ways [_terminate] can return, given what [poll()] answered. *)
Definition terminate_trace (m : bool) (poll : option Z) (evs : list cevent) : Prop :=
  (exists c, poll = Some c /\
     evs = [CEvPoll (Some c)] ++ (if m then [CEvMessage BUG (Some c)] else [])) \/
  (poll = None /\
   ((exists c, evs = [CEvPoll None; CEvTerminate; CEvWait 500000 (Some c)] ++
                     (if bool_decide (c <> 0) && m then [CEvMessage BUG (Some c)] else [])) \/
    (exists c, evs = [CEvPoll None; CEvTerminate; CEvWait 500000 None] ++
                     (if m then [CEvActivityStart] else []) ++ [CEvWait 15000000 (Some c)] ++
                     (if m then [CEvActivityEnd] else []) ++
                     (if bool_decide (c <> 0) && m then [CEvMessage BUG (Some c)] else [])) \/
    (exists c, evs = [CEvPoll None; CEvTerminate; CEvWait 500000 None] ++
                     (if m then [CEvActivityStart] else []) ++
                     [CEvWait 15000000 None; CEvKill; CEvWait 15000000 (Some c)] ++
                     (if m then [CEvMessage WARN None; CEvActivityEnd] else [])))).

(** When every wait of [_terminate] times out. *)
Definition all_waits_time_out (w : W) : Prop :=
  process_poll cops w = None /\
  exists w2 w3 w4,
    process_wait cops 500000 (process_terminate cops w) = (w2, None) /\
    process_wait cops 15000000 w2 = (w3, None) /\
    process_wait cops 15000000 (process_kill cops w3) = (w4, None).

Lemma release_resources_cases (m : bool) (w : W) (tr : list cevent) :
  (release_resources cops m (w, tr) = inl TimeoutExpired /\ all_waits_time_out w) \/
  exists w' evs, release_resources cops m (w, tr) = inr (tt, (w', tr ++ evs ++ [CEvRmtree])) /\
    terminate_trace m (process_poll cops w) evs.
Proof.
  unfold release_resources, _terminate, message, ccall, ccall_, bind, ret, raise. simpl.
  destruct (process_poll cops w) as [c|] eqn:Hp.
  { right. destruct m; simpl.
    - eexists _, [CEvPoll (Some c); CEvMessage BUG (Some c)].
      split; [rewrite <- !app_assoc; reflexivity|left; exists c; split; reflexivity].
    - eexists _, [CEvPoll (Some c)].
      split; [rewrite <- !app_assoc; reflexivity|left; exists c; split; reflexivity]. }
  destruct (process_wait cops 500000 (process_terminate cops w)) as [w2 [c|]] eqn:Hw1.
  { right. destruct (bool_decide (c <> 0) && m) eqn:Hb; simpl.
    - eexists _, [CEvPoll None; CEvTerminate; CEvWait 500000 (Some c); CEvMessage BUG (Some c)].
      split; [rewrite <- !app_assoc; reflexivity|].
      right. split; [reflexivity|]. left; exists c; rewrite Hb; reflexivity.
    - eexists _, [CEvPoll None; CEvTerminate; CEvWait 500000 (Some c)].
      split; [rewrite <- !app_assoc; reflexivity|].
      right. split; [reflexivity|]. left; exists c; rewrite Hb; reflexivity. }
  destruct m; simpl.
  - destruct (process_wait cops 15000000 w2) as [w3 [c|]] eqn:Hw2; simpl.
    + right. destruct (bool_decide (c <> 0)) eqn:Hb; simpl.
      * eexists _, [CEvPoll None; CEvTerminate; CEvWait 500000 None; CEvActivityStart;
                    CEvWait 15000000 (Some c); CEvActivityEnd; CEvMessage BUG (Some c)].
        split; [rewrite <- !app_assoc; reflexivity|].
        right. split; [reflexivity|]. right; left; exists c; rewrite Hb; reflexivity.
      * eexists _, [CEvPoll None; CEvTerminate; CEvWait 500000 None; CEvActivityStart;
                    CEvWait 15000000 (Some c); CEvActivityEnd].
        split; [rewrite <- !app_assoc; reflexivity|].
        right. split; [reflexivity|]. right; left; exists c; rewrite Hb; reflexivity.
    + destruct (process_wait cops 15000000 (process_kill cops w3)) as [w4 [c|]] eqn:Hw3; simpl.
      * right. eexists _, [CEvPoll None; CEvTerminate; CEvWait 500000 None; CEvActivityStart;
                    CEvWait 15000000 None; CEvKill; CEvWait 15000000 (Some c);
                    CEvMessage WARN None; CEvActivityEnd].
        split; [rewrite <- !app_assoc; reflexivity|].
        right. split; [reflexivity|]. right; right; exists c; reflexivity.
      * left. split; [reflexivity|]. split; [exact Hp|]. exists w2, w3, w4. auto.
  - destruct (process_wait cops 15000000 w2) as [w3 [c|]] eqn:Hw2; simpl.
    + right. rewrite andb_false_r. simpl.
      eexists _, [CEvPoll None; CEvTerminate; CEvWait 500000 None; CEvWait 15000000 (Some c)].
      split; [rewrite <- !app_assoc; reflexivity|].
      right. split; [reflexivity|]. right; left; exists c. rewrite andb_false_r. reflexivity.
    + destruct (process_wait cops 15000000 (process_kill cops w3)) as [w4 [c|]] eqn:Hw3; simpl.
      * right. eexists _, [CEvPoll None; CEvTerminate; CEvWait 500000 None;
                    CEvWait 15000000 None; CEvKill; CEvWait 15000000 (Some c)].
        split; [rewrite <- !app_assoc; reflexivity|].
        right. split; [reflexivity|]. right; right; exists c; reflexivity.
      * left. split; [reflexivity|]. split; [exact Hp|]. exists w2, w3, w4. auto.
Qed.

(** X9: [release_resources()] without a messenger sends no message and
    opens no timed activity, whatever the child does. *)
Theorem release_resources_no_messenger_silent (w w' : W) (tr tr' : list cevent) :
  release_resources cops false (w, tr) = inr (tt, (w', tr')) ->
  exists evs, tr' = tr ++ evs /\ Forall (fun e => messenger_event e = false) evs.
Proof.
  intros H. destruct (release_resources_cases false w tr) as [[H' _]|(w1 & evs & H' & Hs)];
    rewrite H' in H; [discriminate|]. injection H as <- <-.
  exists (evs ++ [CEvRmtree]). split; [reflexivity|].
  destruct Hs as [(c & _ & ->)|(_ & [(c & ->)|[(c & ->)|(c & ->)]])];
    rewrite ?andb_false_r; simpl; repeat constructor.
Qed.


(** X11: on a child still running at [poll()], [release_resources()]
    calls [terminate()] right after the poll and before any wait, calls
    [kill()] only after both the 0.5 s and the 15 s waits timed out, and
    removes the socket directory last. *)
Theorem release_resources_kill_after_timeouts (m : bool) (w w' : W) (tr tr' : list cevent) :
  process_poll cops w = None ->
  release_resources cops m (w, tr) = inr (tt, (w', tr')) ->
  exists r1 evs,
    tr' = tr ++ [CEvPoll None; CEvTerminate; CEvWait 500000 r1] ++ evs ++ [CEvRmtree] /\
    ~ In CEvRmtree evs /\
    (In CEvKill evs -> r1 = None /\ In (CEvWait 15000000 None) evs).
Proof.
  intros Hp H. destruct (release_resources_cases m w tr) as [[H' _]|(w1 & evs & H' & Hs)];
    rewrite H' in H; [discriminate|]. injection H as <- <-. rewrite Hp in Hs.
  destruct Hs as [(c & Hc & _)|(_ & [(c & ->)|[(c & ->)|(c & ->)]])]; [discriminate| | |].
  - eexists (Some c), _. split; [reflexivity|].
    destruct (bool_decide (c <> 0) && m); simpl; split; intros H; repeat destruct H as [H|H];
      try discriminate; contradiction.
  - eexists None, _. split; [simpl; reflexivity|].
    destruct m, (bool_decide (c <> 0)); simpl; split; intros H; repeat destruct H as [H|H];
      try discriminate; contradiction.
  - eexists None, _. split; [simpl; reflexivity|].
    destruct m; simpl; (split; [intros H; repeat destruct H as [H|H]; try discriminate; contradiction|]);
      intros _; split; auto; simpl; tauto.
Qed.

(** X12: [release_resources()] either removes the socket directory as its
    last and only removal, or, when the child survives [poll()] and all
    three waits time out (including the one after [kill()]), raises
    TimeoutExpired and leaves the directory in place. *)
Theorem release_resources_outcome (m : bool) (w : W) (tr : list cevent) :
  match release_resources cops m (w, tr) with
  | inr (_, (_, tr')) => exists evs, tr' = tr ++ evs ++ [CEvRmtree] /\ ~ In CEvRmtree evs
  | inl e => e = TimeoutExpired /\ all_waits_time_out w
  end.
Proof.
  destruct (release_resources_cases m w tr) as [[H Hw]|(w1 & evs & H & Hs)]; rewrite H;
    [split; [reflexivity|exact Hw]|].
  exists evs. split; [reflexivity|].
  destruct Hs as [(c & _ & ->)|(_ & [(c & ->)|[(c & ->)|(c & ->)]])];
    [destruct m|destruct (bool_decide (c <> 0) && m)|destruct m, (bool_decide (c <> 0))|destruct m];
    simpl; intros Hin; repeat destruct Hin as [Hin|Hin]; try discriminate; contradiction.
Qed.

End CasdExtras.

Section ChannelExtras.
Import Casd ChannelClose.
Context {W : Type} (cops : CasdOps W).

(** The events of polling rounds [j .. j+k-1] that found no socket. *)
Definition poll_rounds (j k : nat) (w0 : W) : list cevent :=
  concat (map (fun m => [CEvPathExists false; CEvTime (time_time cops (after_sleeps cops m w0));
                         CEvSleep 10000]) (seq j k)).

(** The channel [_establish_connection()] leaves behind. *)
Definition opened (start_time : Z) : CASDChannel :=
  mkCASDChannel start_time (Some tt) (Some ByteStreamStub)
    (Some ContentAddressableStorageStub) (Some LocalContentAddressableStorageStub).

Lemma wait_for_socket_found (start_time : Z) (w0 : W) :
  forall k j fuel tr,
    (k < fuel)%nat ->
    (forall m, (j <= m < j + k)%nat ->
       socket_path_exists cops (after_sleeps cops m w0) = false /\
       time_time cops (after_sleeps cops m w0) <= start_time + 15000000) ->
    socket_path_exists cops (after_sleeps cops (j + k) w0) = true ->
    wait_for_socket cops fuel start_time (after_sleeps cops j w0, tr) =
      inr (tt, (after_sleeps cops (j + k) w0, tr ++ poll_rounds j k w0 ++ [CEvPathExists true])).
Proof.
  induction k as [|k IH]; intros j fuel tr Hf Hpre Hfound;
    (destruct fuel as [|fuel]; [lia|]);
    unfold wait_for_socket; fold (wait_for_socket cops);
    unfold ccall, ccall_, bind, ret; simpl.
  - rewrite Nat.add_0_r in Hfound |- *. rewrite Hfound. reflexivity.
  - destruct (Hpre j ltac:(lia)) as [Habs Hle]. rewrite Habs.
    destruct (Z.gtb_spec (time_time cops (after_sleeps cops j w0)) (start_time + 15000000));
      [lia|].
    change (time_sleep cops 10000 (after_sleeps cops j w0)) with (after_sleeps cops (S j) w0).
    rewrite (IH (S j) fuel); [|lia| |].
    + replace (S j + k)%nat with (j + S k)%nat by lia.
      unfold poll_rounds. simpl. rewrite <- !app_assoc. reflexivity.
    + intros m Hm. apply Hpre. lia.
    + replace (S j + k)%nat with (j + S k)%nat by lia. exact Hfound.
Qed.

Lemma wait_for_socket_errors (fuel : nat) (start_time : Z) (st : W * list cevent) (e : exn) :
  wait_for_socket cops fuel start_time st = inl e -> e = NoFuel \/ e = CASCacheError.
Proof.
  revert st. induction fuel as [|fuel IH]; intros [w tr] H;
    unfold wait_for_socket in H; fold (wait_for_socket cops) in H.
  - injection H as <-. auto.
  - unfold ccall, ccall_, bind, ret, raise in H. simpl in H.
    destruct (socket_path_exists cops w); [discriminate|].
    destruct (time_time cops w >? start_time + 15000000); [injection H as <-; auto|].
    exact (IH _ H).
Qed.

(** X13: on a closed channel, when the socket is absent at polls [0 .. n-1]
    (each taken no later than [_start_time + 15] seconds) and present at
    poll [n], [get_cas], [get_local_cas] and [get_bytestream] poll exactly
    [n + 1] times, sleep 10 ms between polls, open the channel with all
    three stubs and return their own stub. Times are in microseconds. *)
Theorem get_stub_connects (ch : CASDChannel) (w0 : W) (tr : list cevent) (n fuel : nat) :
  _casd_channel ch = None ->
  (forall m, (m < n)%nat ->
     socket_path_exists cops (after_sleeps cops m w0) = false /\
     time_time cops (after_sleeps cops m w0) <= _start_time ch + 15000000) ->
  socket_path_exists cops (after_sleeps cops n w0) = true ->
  (n < fuel)%nat ->
  let st' := (after_sleeps cops n w0, tr ++ poll_rounds 0 n w0 ++ [CEvPathExists true]) in
  get_cas cops fuel ch (w0, tr) =
    inr ((opened (_start_time ch), Some ContentAddressableStorageStub), st') /\
  get_local_cas cops fuel ch (w0, tr) =
    inr ((opened (_start_time ch), Some LocalContentAddressableStorageStub), st') /\
  get_bytestream cops fuel ch (w0, tr) =
    inr ((opened (_start_time ch), Some ByteStreamStub), st').
Proof.
  intros Hch Hpre Hfound Hf st'.
  assert (Hw : wait_for_socket cops fuel (_start_time ch) (w0, tr) = inr (tt, st')).
  { apply (wait_for_socket_found (_start_time ch) w0 n 0 fuel tr Hf).
    - intros m Hm. apply Hpre. lia.
    - exact Hfound. }
  unfold get_cas, get_local_cas, get_bytestream, ensure_connection, _establish_connection.
  rewrite Hch. unfold bind at 1 3 5. unfold bind. rewrite Hw. repeat split.
Qed.

(** X14: [get_cas], [get_local_cas] and [get_bytestream] never fail the
    [assert self._casd_channel is None] of [_establish_connection()]; once
    one of them has succeeded the channel is open, keeps its start time,
    and every later call of any of them returns the stored stub without
    polling the socket or touching the world. *)
Theorem get_stub_connects_once (fuel : nat) (ch ch' : CASDChannel) (r : option Stub)
  (st st' : W * list cevent) :
  get_cas cops fuel ch st <> inl AssertionError /\
  get_local_cas cops fuel ch st <> inl AssertionError /\
  get_bytestream cops fuel ch st <> inl AssertionError /\
  ((get_cas cops fuel ch st = inr ((ch', r), st') \/
    get_local_cas cops fuel ch st = inr ((ch', r), st') \/
    get_bytestream cops fuel ch st = inr ((ch', r), st')) ->
   is_closed ch' = false /\ _start_time ch' = _start_time ch /\
   forall fuel' st2,
     get_cas cops fuel' ch' st2 = inr ((ch', _casd_cas ch'), st2) /\
     get_local_cas cops fuel' ch' st2 = inr ((ch', _local_cas ch'), st2) /\
     get_bytestream cops fuel' ch' st2 = inr ((ch', _bytestream ch'), st2)).
Proof.
  unfold get_cas, get_local_cas, get_bytestream, ensure_connection, _establish_connection.
  destruct (_casd_channel ch) as [u|] eqn:Hch.
  - unfold bind, ret. split; [discriminate|split; [discriminate|split; [discriminate|]]].
    intros [H|[H|H]]; injection H as -> _ _;
      (split; [unfold is_closed; rewrite Hch; reflexivity|split; [reflexivity|]]);
      intros fuel' st2; rewrite Hch; repeat split.
  - unfold bind at 1 3 5 7 9 11. unfold bind, ret.
    destruct (wait_for_socket cops fuel (_start_time ch) st) as [e|[[] st1]] eqn:Hw.
    + destruct (wait_for_socket_errors _ _ _ _ Hw) as [->| ->];
        (split; [discriminate|split; [discriminate|split; [discriminate|]]]);
        intros [H|[H|H]]; discriminate.
    + split; [discriminate|split; [discriminate|split; [discriminate|]]].
      intros [H|[H|H]]; injection H as <- _ _; (split; [reflexivity|split; [reflexivity|]]);
        intros fuel' st2; simpl; repeat split.
Qed.

(** X15: [close()] leaves the channel closed, closing twice is closing
    once, and it keeps the start time and (unlike the two CAS stubs) the
    [_bytestream] stub; that stale stub is never handed out, because
    [get_cas], [get_local_cas] and [get_bytestream] on a closed channel
    behave as on a fresh channel with the same start time. *)
Theorem close_spec (ch : CASDChannel) :
  is_closed (close ch) = true /\ close (close ch) = close ch /\
  _start_time (close ch) = _start_time ch /\ _bytestream (close ch) = _bytestream ch /\
  (is_closed ch = false -> _casd_cas (close ch) = None /\ _local_cas (close ch) = None) /\
  forall fuel st,
    let fresh := mkCASDChannel (_start_time ch) None None None None in
    get_cas cops fuel (close ch) st = get_cas cops fuel fresh st /\
    get_local_cas cops fuel (close ch) st = get_local_cas cops fuel fresh st /\
    get_bytestream cops fuel (close ch) st = get_bytestream cops fuel fresh st.
Proof.
  unfold close, is_closed.
  destruct ch as [t [u|] b c l]; simpl.
  - repeat split; reflexivity.
  - repeat split; discriminate.
Qed.

End ChannelExtras.

Section PluginExtras.
Import PluginRegistry PluginLookup.
Context {P : Type}.

(** The table after the plugins [ps] were registered on top of [r]. *)
Definition table_after (ps : list P) (r : Registry P) (key : PyKey) : option P :=
  match key with
  | inl k =>
      if decide (__PLUGINS_UNIQUE_ID r < k <= __PLUGINS_UNIQUE_ID r + Z.of_nat (length ps))
      then ps !! Z.to_nat (k - __PLUGINS_UNIQUE_ID r - 1)
      else __PLUGINS_TABLE r !! key
  | inr _ => __PLUGINS_TABLE r !! key
  end.

Lemma register_all_table (ps : list P) (r : Registry P) :
  exists r', register_all ps r =
               inr (seqZ (__PLUGINS_UNIQUE_ID r + 1) (Z.of_nat (length ps)), r') /\
    __PLUGINS_UNIQUE_ID r' = __PLUGINS_UNIQUE_ID r + Z.of_nat (length ps) /\
    forall key, __PLUGINS_TABLE r' !! key = table_after ps r key.
Proof.
  revert r. induction ps as [|p ps IH]; intros r.
  - exists r. split; [reflexivity|]. split; [simpl; lia|].
    intros [k|s]; simpl; [|reflexivity]. destruct (decide _); [lia|reflexivity].
  - set (c := __PLUGINS_UNIQUE_ID r).
    set (r1 := mkRegistry (c + 1) (<[inl (c + 1) := p]> (__PLUGINS_TABLE r)) : Registry P).
    destruct (IH r1) as (r' & Hrun & Hc & Ht).
    exists r'. split; [|split].
    + simpl. unfold bind, _plugin_register, get, put, ret, bind. simpl.
      fold c. fold r1. rewrite Hrun.
      rewrite (seqZ_cons (c + 1)) by lia. simpl.
      replace (Z.pred (Z.of_nat (S (length ps)))) with (Z.of_nat (length ps)) by lia.
      replace (Z.succ (c + 1)) with (c + 1 + 1) by lia. reflexivity.
    + rewrite Hc. simpl. subst c. lia.
    + intros key. rewrite Ht. unfold table_after. simpl. fold c.
      destruct key as [k|s].
      * destruct (decide (c + 1 < k <= c + 1 + Z.of_nat (length ps))) as [H1|H1];
          destruct (decide (c < k <= c + Z.of_nat (S (length ps)))) as [H2|H2]; try lia.
        -- replace (Z.to_nat (k - c - 1)) with (S (Z.to_nat (k - (c + 1) - 1))) by lia.
           reflexivity.
        -- destruct (decide (k = c + 1)) as [->|Hne].
           ++ rewrite lookup_insert_eq. replace (Z.to_nat (c + 1 - c - 1)) with O by lia.
              reflexivity.
           ++ lia.
        -- rewrite lookup_insert_ne; [reflexivity|]. intros Heq. injection Heq. lia.
      * rewrite lookup_insert_ne by discriminate. reflexivity.
Qed.

(** X16: [[_plugin_register(p) for p in ps]] hands out the consecutive ids
    following [__PLUGINS_UNIQUE_ID], advances the counter by the number of
    plugins, makes [_plugin_lookup] find the [i]-th plugin under the [i]-th
    id, and changes neither the lookup of any other id nor any [str] key
    (the keys [_plugin_unregister] deletes). *)
Theorem register_all_lookup (ps : list P) (r : Registry P) :
  let c := __PLUGINS_UNIQUE_ID r in
  exists r', register_all ps r = inr (seqZ (c + 1) (Z.of_nat (length ps)), r') /\
    __PLUGINS_UNIQUE_ID r' = c + Z.of_nat (length ps) /\
    (forall i p, ps !! i = Some p -> _plugin_lookup (c + 1 + Z.of_nat i) r' = inr p) /\
    (forall k, ~ (c < k <= c + Z.of_nat (length ps)) -> _plugin_lookup k r' = _plugin_lookup k r) /\
    (forall s, __PLUGINS_TABLE r' !! (inr s : PyKey) = __PLUGINS_TABLE r !! (inr s : PyKey)).
Proof.
  intros c. destruct (register_all_table ps r) as (r' & Hrun & Hc & Ht).
  exists r'. split; [exact Hrun|]. split; [exact Hc|]. split; [|split].
  - intros i p Hi. unfold _plugin_lookup. rewrite Ht. unfold table_after. fold c.
    pose proof (lookup_lt_Some _ _ _ Hi).
    destruct (decide _); [|lia].
    replace (Z.to_nat (c + 1 + Z.of_nat i - c - 1)) with i by lia. rewrite Hi. reflexivity.
  - intros k Hk. unfold _plugin_lookup. rewrite Ht. unfold table_after. fold c.
    destruct (decide _); [lia|reflexivity].
  - intros s. rewrite Ht. reflexivity.
Qed.

(** The plugins registered by a run of calls, in order. *)
Fixpoint registered (cs : list (reg_call P)) : list P :=
  match cs with
  | [] => []
  | CallRegister p :: cs' => p :: registered cs'
  | CallUnregister _ :: cs' => registered cs'
  end.

(** What a registry built only by [_plugin_register] from import time
    looks like: the [i]-th registered plugin under id [i + 1]. *)
Definition reg_inv (ps : list P) (r : Registry P) : Prop :=
  __PLUGINS_UNIQUE_ID r = Z.of_nat (length ps) /\
  forall key, __PLUGINS_TABLE r !! key =
    match key with
    | inl k => if decide (1 <= k) then ps !! Z.to_nat (k - 1) else None
    | inr _ => None
    end.

Lemma run_calls_inv (cs : list (reg_call P)) :
  forall ps r r', reg_inv ps r -> run_calls cs r = inr (tt, r') ->
    reg_inv (ps ++ registered cs) r'.
Proof.
  induction cs as [|[p|u] cs IH]; intros ps r r' [Hc Ht] Hrun.
  - injection Hrun as <-. rewrite app_nil_r. split; assumption.
  - simpl in Hrun. unfold bind at 1, run_call, _plugin_register, get, put, ret, bind in Hrun.
    simpl in Hrun.
    change (registered (CallRegister p :: cs)) with (p :: registered cs).
    replace (ps ++ p :: registered cs) with ((ps ++ [p]) ++ registered cs)
      by (rewrite <- app_assoc; reflexivity).
    eapply IH; [|exact Hrun]. split.
    + simpl. rewrite Hc, length_app. simpl. lia.
    + intros [k|s]; simpl.
      * destruct (decide (k = __PLUGINS_UNIQUE_ID r + 1)) as [->|Hne].
        -- rewrite lookup_insert_eq. destruct (decide _); [|lia].
           rewrite Hc. replace (Z.to_nat (Z.of_nat (length ps) + 1 - 1)) with (length ps) by lia.
           rewrite lookup_app_r by lia. rewrite Nat.sub_diag. reflexivity.
        -- rewrite lookup_insert_ne by congruence. rewrite Ht.
           destruct (decide (1 <= k)); [|reflexivity].
           rewrite lookup_app. destruct (ps !! Z.to_nat (k - 1)) eqn:Hl; [reflexivity|].
           apply lookup_ge_None in Hl.
           rewrite lookup_cons_ne_0; [|lia]. reflexivity.
      * rewrite lookup_insert_ne by discriminate. apply Ht.
  - simpl in Hrun. unfold bind at 1, run_call, _plugin_unregister, get, bind in Hrun.
    simpl in Hrun. rewrite Ht in Hrun. discriminate.
Qed.


End PluginExtras.

Section FilterExtras.
Import Casd FilterElement.

Lemma str_leb_antisym (a b : string) :
  str_leb a b = true -> str_leb b a = true -> a = b.
Proof.
  revert b. induction a as [|x a IH]; intros [|y b]; try discriminate; auto.
  rewrite !str_leb_cons.
  destruct (decide (x = y)) as [->|Hxy].
  - rewrite decide_True by reflexivity. intros H1 H2. f_equal. apply IH; assumption.
  - rewrite decide_False by congruence. rewrite !Nat.ltb_lt. intros. lia.
Qed.

#[local] Instance str_le_total' : Total str_le.
Proof. intros a b. apply str_leb_total. Qed.

#[local] Instance str_le_trans' : Transitive str_le.
Proof. intros a b c. apply str_leb_trans. Qed.

#[local] Instance str_le_antisymm : AntiSymm (=) str_le.
Proof. intros a b. apply str_leb_antisym. Qed.

Lemma sorted_perm (l1 l2 : list string) : l1 ≡ₚ l2 -> sorted l1 = sorted l2.
Proof.
  intros Hp. unfold sorted. apply (StronglySorted_unique str_le).
  - apply StronglySorted_merge_sort; typeclasses eauto.
  - apply StronglySorted_merge_sort; typeclasses eauto.
  - rewrite !merge_sort_Permutation. exact Hp.
Qed.

(** X18: the cache key [get_unique_key()] builds holds exactly the
    configured include and exclude names, each list in ascending [str]
    order, so two filter elements whose lists hold the same names (with
    the same multiplicities) in any order and that agree on
    [include-orphans] get the same key. *)
Theorem get_unique_key_order_independent (f1 f2 : FilterElement) :
  include f1 ≡ₚ include f2 -> exclude f1 ≡ₚ exclude f2 ->
  include_orphans f1 = include_orphans f2 ->
  get_unique_key f1 = get_unique_key f2 /\
  key_include (get_unique_key f1) ≡ₚ include f1 /\
  key_exclude (get_unique_key f1) ≡ₚ exclude f1 /\
  StronglySorted str_le (key_include (get_unique_key f1)) /\
  StronglySorted str_le (key_exclude (get_unique_key f1)).
Proof.
  intros Hi He Ho. unfold get_unique_key. simpl. split; [|split; [|split; [|split]]].
  - rewrite (sorted_perm _ _ Hi), (sorted_perm _ _ He), Ho. reflexivity.
  - apply merge_sort_Permutation.
  - apply merge_sort_Permutation.
  - apply StronglySorted_merge_sort; typeclasses eauto.
  - apply StronglySorted_merge_sort; typeclasses eauto.
Qed.

End FilterExtras.

Section ZipExtras.
Import ZipSource.

Lemma existsb_eqb_In (x : string) (l : list string) :
  existsb (String.eqb x) l = true <-> In x l.
Proof.
  induction l as [|y l IH]; simpl; [split; [discriminate|contradiction]|].
  rewrite orb_true_iff, IH, String.eqb_eq. split; intros [H|H]; auto.
Qed.

Lemma prefix_app (p s : string) :
  String.prefix p s = true -> exists t, s = (p +:+ t)%string.
Proof.
  revert s. induction p as [|c p IH]; intros s H; [exists s; reflexivity|].
  destruct s as [|d s]; [discriminate|]. simpl in H.
  destruct (Ascii.ascii_dec c d) as [->|]; [|discriminate].
  destruct (IH s H) as [t ->]. exists t. reflexivity.
Qed.

Lemma substring_0_length (t : string) : String.substring 0 (String.length t) t = t.
Proof. induction t as [|c t IH]; simpl; [reflexivity|]. rewrite IH. reflexivity. Qed.

Lemma substring_app (p t : string) (k m : nat) :
  String.substring (String.length p + k) m (p +:+ t) = String.substring k m t.
Proof. induction p as [|c p IH]; simpl; [reflexivity|]. exact IH. Qed.

Lemma length_append_str (p t : string) :
  String.length (p +:+ t) = (String.length p + String.length t)%nat.
Proof. induction p as [|c p IH]; simpl; [reflexivity|]. rewrite IH. reflexivity. Qed.

Lemma slice_from_app (p t : string) :
  slice_from (String.length p) (p +:+ t) = t.
Proof.
  unfold slice_from. rewrite length_append_str.
  replace (String.length p + String.length t - String.length p)%nat with (String.length t) by lia.
  rewrite <- (Nat.add_0_r (String.length p)) at 1. rewrite substring_app.
  apply substring_0_length.
Qed.

Lemma endswith_append (b : string) : endswith (b +:+ sep) sep = true.
Proof.
  unfold endswith. rewrite length_append_str. simpl.
  replace (String.length b + 1 - 1)%nat with (String.length b + 0)%nat by lia.
  rewrite substring_app. simpl. rewrite Nat.add_1_r. reflexivity.
Qed.

(** X19: [_extract_members(archive, base_dir)] yields, in archive order,
    exactly the members whose name starts with [base_dir] followed by a
    separator (one is added when [base_dir] lacks it) other than that
    directory itself, each renamed to the rest of its name; so [base_dir]
    with or without the trailing separator selects the same members. *)
Theorem extract_members_spec (names : list string) (b : string) :
  let nb := if endswith b sep then b else (b +:+ sep)%string in
  map (fun n => (nb +:+ n)%string) (_extract_members names b) =
    List.filter (fun n => String.prefix nb n && negb (String.eqb n nb)) names /\
  _extract_members names nb = _extract_members names b.
Proof.
  intros nb. split.
  - unfold _extract_members. fold nb.
    induction names as [|n names IH]; simpl; [reflexivity|].
    destruct (String.eqb_spec n nb) as [->|Hne]; simpl.
    + rewrite andb_false_r. exact IH.
    + rewrite andb_true_r. destruct (String.prefix nb n) eqn:Hp; [|exact IH].
      simpl. rewrite IH. destruct (prefix_app _ _ Hp) as [t ->].
      rewrite slice_from_app. reflexivity.
  - assert (Hnb : endswith nb sep = true).
    { unfold nb. destruct (endswith b sep) eqn:He; [exact He|apply endswith_append]. }
    unfold _extract_members at 1. rewrite Hnb. reflexivity.
Qed.

Lemma list_archive_loop_dirs_only (filenames members visited : list string) :
  list_archive_loop filenames true members visited =
  list_archive_loop filenames false members visited.
Proof.
  revert visited. induction members as [|f members IH]; intros visited; simpl; [reflexivity|].
  destruct (is_dir f) eqn:Hd; simpl.
  - destruct (String.eqb f "./"); rewrite IH; reflexivity.
  - destruct (visit_components filenames (dir_components f) visited). rewrite IH. reflexivity.
Qed.

(** What [visit_components] returns: new components only, each once,
    all missing from the archive, and all recorded as visited. *)
Lemma visit_components_spec (filenames dcs visited out visited' : list string) :
  visit_components filenames dcs visited = (out, visited') ->
  NoDup out /\
  (forall x, In x out -> ~ In x visited /\ In x visited' /\ In x dcs /\
                         getinfo_ok filenames x = false) /\
  (forall x, In x visited -> In x visited').
Proof.
  revert visited out visited'.
  induction dcs as [|d dcs IH]; intros visited out visited' H; simpl in H.
  - injection H as <- <-. split; [constructor|]. split; [intros x []|auto].
  - destruct (existsb (String.eqb d) visited) eqn:Hv.
    + destruct (IH _ _ _ H) as (Hnd & Hout & Hsub). split; [exact Hnd|]. split; [|exact Hsub].
      intros x Hx. destruct (Hout x Hx) as (? & ? & ? & ?). simpl. tauto.
    + destruct (visit_components filenames dcs (d :: visited)) as [out1 v1] eqn:Hr.
      destruct (IH _ _ _ Hr) as (Hnd & Hout & Hsub).
      assert (Hdv : ~ In d visited).
      { intros Hin. apply existsb_eqb_In in Hin. congruence. }
      destruct (getinfo_ok filenames d) eqn:Hg; injection H as <- <-.
      * split; [exact Hnd|]. split; [|intros x Hx; apply Hsub; right; exact Hx].
        intros x Hx. destruct (Hout x Hx) as (Hn & ? & ? & ?).
        split; [intros Hin; apply Hn; right; exact Hin|]. simpl. tauto.
      * split; [|split].
        -- constructor; [|exact Hnd]. intros Hin. apply list_elem_of_In in Hin.
           destruct (Hout d Hin) as [Hn _].
           apply Hn. left. reflexivity.
        -- intros x [<-|Hx]; [split; [exact Hdv|]; split; [apply Hsub; left; reflexivity|];
                              split; [left; reflexivity|exact Hg]|].
           destruct (Hout x Hx) as (Hn & ? & ? & ?).
           split; [intros Hin; apply Hn; right; exact Hin|]. simpl. tauto.
        -- intros x Hx. apply Hsub. right. exact Hx.
Qed.

Lemma list_archive_loop_spec (filenames members visited : list string) :
  (forall m, In m members -> In m filenames) ->
  NoDup (List.filter (fun p => negb (getinfo_ok filenames p))
           (list_archive_loop filenames false members visited)) /\
  forall p, In p (list_archive_loop filenames false members visited) ->
    (In p members /\ is_dir p = true /\ p <> "./"%string) \/
    (~ In p visited /\ getinfo_ok filenames p = false /\
     exists f, In f members /\ is_dir f = false /\ In p (dir_components f)).
Proof.
  revert visited. induction members as [|f members IH]; intros visited Hsub; simpl;
    [split; [constructor|intros p []]|].
  assert (Hsub' : forall m, In m members -> In m filenames) by (intros; apply Hsub; right; auto).
  destruct (is_dir f) eqn:Hd; simpl.
  - destruct (String.eqb_spec f "./") as [->|Hne].
    + destruct (IH visited Hsub') as [Hnd Hin]. split; [exact Hnd|].
      intros p Hp. destruct (Hin p Hp) as [(? & ? & ?)|(? & ? & f' & ? & ?)]; [left|right]; simpl.
      * tauto.
      * split; [assumption|]. split; [assumption|]. exists f'. tauto.
    + destruct (IH visited Hsub') as [Hnd Hin].
      assert (Hg : getinfo_ok filenames f = true).
      { apply existsb_eqb_In, Hsub. left. reflexivity. }
      cbn [List.filter]. rewrite Hg. simpl. split; [exact Hnd|].
      intros p [<-|Hp]; [left; simpl; tauto|].
      destruct (Hin p Hp) as [(? & ? & ?)|(? & ? & f' & ? & ?)]; [left|right]; simpl.
      * tauto.
      * split; [assumption|]. split; [assumption|]. exists f'. tauto.
  - destruct (visit_components filenames (dir_components f) visited) as [out v'] eqn:Hv.
    destruct (visit_components_spec _ _ _ _ _ Hv) as (Hnd & Hout & Hvs).
    destruct (IH v' Hsub') as [Hnd' Hin].
    assert (Hfo : List.filter (fun p => negb (getinfo_ok filenames p)) out = out).
    { clear -Hout. induction out as [|x out IHo]; simpl; [reflexivity|].
      destruct (Hout x (or_introl eq_refl)) as (_ & _ & _ & ->). simpl.
      rewrite IHo; [reflexivity|]. intros y Hy. apply Hout. right. exact Hy. }
    rewrite List.filter_app, Hfo. split.
    + apply NoDup_app. split; [exact Hnd|]. split; [|exact Hnd'].
      intros x Hx Hx'. apply list_elem_of_In in Hx, Hx'.
      apply List.filter_In in Hx' as [Hx' _].
      destruct (Hout x Hx) as (_ & Hxv & _).
      destruct (Hin x Hx') as [(Hxm & _ & _)|(Hn & _)].
      * destruct (Hout x Hx) as (_ & _ & _ & Hg).
        assert (Hg' : getinfo_ok filenames x = true) by (apply existsb_eqb_In, Hsub', Hxm).
        congruence.
      * contradiction.
    + intros p Hp. apply in_app_or in Hp as [Hp|Hp].
      * destruct (Hout p Hp) as (Hn & _ & Hdc & Hg). right. split; [exact Hn|].
        split; [exact Hg|]. exists f. split; [left; reflexivity|]. split; [exact Hd|exact Hdc].
      * destruct (Hin p Hp) as [(? & ? & ?)|(Hn & Hg & f' & ? & ? & ?)]; [left; simpl; tauto|].
        right. split; [intros Hpv; apply Hn, Hvs, Hpv|]. split; [exact Hg|].
        exists f'. simpl. tauto.
Qed.

(** X20: [_list_archive_paths(archive, dirs_only)] returns the same paths
    whether [dirs_only] is true or false; each path is either a directory
    member of the archive other than ["./"] or a directory component of a
    file member that the archive does not contain, and no such missing
    component is listed twice. *)
Theorem list_archive_paths_spec (names : list string) :
  _list_archive_paths names true = _list_archive_paths names false /\
  NoDup (List.filter (fun p => negb (getinfo_ok names p)) (_list_archive_paths names false)) /\
  forall p, In p (_list_archive_paths names false) ->
    (In p names /\ is_dir p = true /\ p <> "./"%string) \/
    (getinfo_ok names p = false /\
     exists f, In f names /\ is_dir f = false /\ In p (dir_components f)).
Proof.
  unfold _list_archive_paths. split; [apply list_archive_loop_dirs_only|].
  destruct (list_archive_loop_spec names names [] (fun m H => H)) as [Hnd Hin].
  split; [exact Hnd|]. intros p Hp.
  destruct (Hin p Hp) as [H|(_ & H)]; [left; exact H|right; exact H].
Qed.

End ZipExtras.

(** * Witnesses of the further properties *)




Lemma sched_maintenance_at_most_one_witness :
  exists s', _sched demo_ops 3 demo_sched = inr (tt, s') /\
    (count_job CleanupJob (_active_jobs s') <= S (count_job CleanupJob (_active_jobs demo_sched)))%nat /\
    (count_job CacheSizeJob (_active_jobs s') <= S (count_job CacheSizeJob (_active_jobs demo_sched)))%nat.
Proof.
  destruct (_sched demo_ops 3 demo_sched) as [e|[[] s']] eqn:Hrun;
    [vm_compute in Hrun; discriminate|].
  exists s'. split; [reflexivity|].
  destruct (sched_maintenance_at_most_one demo_ops 3 demo_sched s' Hrun)
    as [[(H1 & _)|(H1 & _)] [(H2 & _)|(H2 & _)]]; rewrite H1, H2; lia.
Defined.

Lemma suspend_resume_discounts_witness :
  SchedulerTime.suspended demo_time_state = false /\
  SchedulerTime._starttime demo_time_state = Some 100 /\
  exists s', (SchedulerTime._suspend_jobs 150 ;;; SchedulerTime._suspend_jobs 160 ;;;
              SchedulerTime._resume_jobs 200) demo_time_state = inr (tt, s') /\
    SchedulerTime.elapsed_time 300 s' = 150.
Proof.
  split; [reflexivity|]. split; [reflexivity|].
  destruct (suspend_resume_discounts demo_time_state 100 150 160 200 eq_refl eq_refl)
    as (s' & H1 & _ & _ & _ & _ & H6).
  exists s'. split; [exact H1|]. rewrite H6. reflexivity.
Defined.

Lemma suspend_event_spec_witness :
  SchedulerTime._suspend_event 150 200 (SchedulerTime.mkState false 1 (Some 100) None [1%nat] []) =
    inr (tt, SchedulerTime.mkState false 0 (Some 100) None [1%nat] []) /\
  SchedulerTime.internal_stops demo_time_state = 0 /\
  SchedulerTime.suspended demo_time_state = false /\
  SchedulerTime._starttime demo_time_state = Some 100 /\
  exists s', SchedulerTime._suspend_event 150 200 demo_time_state = inr (tt, s') /\
    SchedulerTime.elapsed_time 300 s' = 150.
Proof.
  split.
  { apply (proj1 (suspend_event_spec (SchedulerTime.mkState false 1 (Some 100) None [1%nat] [])
                    150 200)).
    discriminate. }
  split; [reflexivity|]. split; [reflexivity|]. split; [reflexivity|].
  destruct (proj2 (suspend_event_spec demo_time_state 150 200) eq_refl eq_refl 100 eq_refl)
    as (s' & H1 & _ & _ & _ & H5).
  exists s'. split; [exact H1|]. rewrite H5. reflexivity.
Defined.



Lemma release_resources_no_messenger_silent_witness :
  Casd.release_resources demo_kill_ops false (mkDemoCasd None 0 0, []) =
    inr (tt, (mkDemoCasd (Some (-9)) 0 0,
              [Casd.CEvPoll None; Casd.CEvTerminate; Casd.CEvWait 500000 None;
               Casd.CEvWait 15000000 None; Casd.CEvKill; Casd.CEvWait 15000000 (Some (-9));
               Casd.CEvRmtree])) /\
  exists evs, [Casd.CEvPoll None; Casd.CEvTerminate; Casd.CEvWait 500000 None;
               Casd.CEvWait 15000000 None; Casd.CEvKill; Casd.CEvWait 15000000 (Some (-9));
               Casd.CEvRmtree] = [] ++ evs /\
    Forall (fun e => messenger_event e = false) evs.
Proof.
  assert (H : Casd.release_resources demo_kill_ops false (mkDemoCasd None 0 0, []) =
    inr (tt, (mkDemoCasd (Some (-9)) 0 0,
              [Casd.CEvPoll None; Casd.CEvTerminate; Casd.CEvWait 500000 None;
               Casd.CEvWait 15000000 None; Casd.CEvKill; Casd.CEvWait 15000000 (Some (-9));
               Casd.CEvRmtree]))) by reflexivity.
  split; [exact H|].
  exact (release_resources_no_messenger_silent demo_kill_ops _ _ _ _ H).
Defined.


Lemma release_resources_kill_after_timeouts_witness :
  Casd.process_poll demo_kill_ops (mkDemoCasd None 0 0) = None /\
  exists r1 evs,
    [Casd.CEvPoll None; Casd.CEvTerminate; Casd.CEvWait 500000 None;
     Casd.CEvActivityStart; Casd.CEvWait 15000000 None; Casd.CEvKill;
     Casd.CEvWait 15000000 (Some (-9)); Casd.CEvMessage Casd.WARN None;
     Casd.CEvActivityEnd; Casd.CEvRmtree] =
      [] ++ [Casd.CEvPoll None; Casd.CEvTerminate; Casd.CEvWait 500000 r1] ++ evs ++
      [Casd.CEvRmtree] /\
    ~ In Casd.CEvRmtree evs /\
    (In Casd.CEvKill evs -> r1 = None /\ In (Casd.CEvWait 15000000 None) evs).
Proof.
  split; [reflexivity|].
  apply (release_resources_kill_after_timeouts demo_kill_ops true (mkDemoCasd None 0 0)
           (mkDemoCasd (Some (-9)) 0 0) []); reflexivity.
Defined.

Lemma release_resources_outcome_witness :
  Casd.release_resources demo_casd_ops true (mkDemoCasd None 0 0, []) = inl TimeoutExpired /\
  all_waits_time_out demo_casd_ops (mkDemoCasd None 0 0).
Proof.
  pose proof (release_resources_outcome demo_casd_ops true (mkDemoCasd None 0 0) []) as H.
  assert (He : Casd.release_resources demo_casd_ops true (mkDemoCasd None 0 0, []) =
               inl TimeoutExpired) by reflexivity.
  rewrite He in H. split; [exact He|exact (proj2 H)].
Defined.

Lemma get_stub_connects_witness :
  Casd._casd_channel demo_channel = None /\
  Casd.get_cas demo_casd_ops 5 demo_channel (mkDemoCasd None 0 20000, []) =
    inr ((opened 0, Some Casd.ContentAddressableStorageStub),
         (mkDemoCasd None 20000 20000,
          [Casd.CEvPathExists false; Casd.CEvTime 0; Casd.CEvSleep 10000;
           Casd.CEvPathExists false; Casd.CEvTime 10000; Casd.CEvSleep 10000;
           Casd.CEvPathExists true])).
Proof.
  split; [reflexivity|].
  pose proof (get_stub_connects demo_casd_ops demo_channel (mkDemoCasd None 0 20000) [] 2 5
                eq_refl) as H.
  destruct H as [H _].
  - intros m Hm. destruct m as [|[|m]]; [split; [reflexivity|simpl; lia]
                                          |split; [reflexivity|simpl; lia]|lia].
  - reflexivity.
  - lia.
  - exact H.
Defined.

Lemma get_stub_connects_once_witness :
  Casd.get_cas demo_casd_ops 5 demo_channel (mkDemoCasd None 0 0, []) =
    inr ((opened 0, Some Casd.ContentAddressableStorageStub),
         (mkDemoCasd None 0 0, [Casd.CEvPathExists true])) /\
  Casd.get_bytestream demo_casd_ops 0 (opened 0) (mkDemoCasd None 0 0, [Casd.CEvPathExists true]) =
    inr ((opened 0, Some Casd.ByteStreamStub), (mkDemoCasd None 0 0, [Casd.CEvPathExists true])).
Proof.
  assert (H : Casd.get_cas demo_casd_ops 5 demo_channel (mkDemoCasd None 0 0, []) =
    inr ((opened 0, Some Casd.ContentAddressableStorageStub),
         (mkDemoCasd None 0 0, [Casd.CEvPathExists true]))) by reflexivity.
  split; [exact H|].
  destruct (get_stub_connects_once demo_casd_ops 5 demo_channel (opened 0)
              (Some Casd.ContentAddressableStorageStub) (mkDemoCasd None 0 0, [])
              (mkDemoCasd None 0 0, [Casd.CEvPathExists true])) as (_ & _ & _ & H4).
  destruct (H4 (or_introl H)) as (_ & _ & H5).
  exact (proj2 (proj2 (H5 0%nat (mkDemoCasd None 0 0, [Casd.CEvPathExists true])))).
Defined.

Lemma close_spec_witness :
  ChannelClose.is_closed (opened 0) = false /\
  ChannelClose.is_closed (ChannelClose.close (opened 0)) = true /\
  Casd._bytestream (ChannelClose.close (opened 0)) = Some Casd.ByteStreamStub /\
  Casd._casd_cas (ChannelClose.close (opened 0)) = None.
Proof.
  destruct (close_spec demo_casd_ops (opened 0)) as (H1 & _ & _ & H4 & H5 & _).
  split; [reflexivity|]. split; [exact H1|]. split; [exact H4|].
  exact (proj1 (H5 eq_refl)).
Defined.

Lemma register_all_lookup_witness :
  exists r', PluginLookup.register_all [10%nat; 20%nat] PluginRegistry.initial_registry =
               inr ([1; 2], r') /\
    PluginLookup._plugin_lookup 2 r' = inr 20%nat /\
    PluginLookup._plugin_lookup 3 r' = inl PluginLookup.NameError.
Proof.
  destruct (register_all_lookup [10%nat; 20%nat] PluginRegistry.initial_registry)
    as (r' & H1 & _ & H3 & H4 & _).
  exists r'. split; [exact H1|]. split.
  - exact (H3 1%nat 20%nat eq_refl).
  - rewrite (H4 3); [reflexivity|]. simpl. lia.
Defined.


Lemma get_unique_key_order_independent_witness :
  FilterElement.get_unique_key (FilterElement.mkFilterElement ["b"; "a"] ["c"] true)%string =
  FilterElement.get_unique_key (FilterElement.mkFilterElement ["a"; "b"] ["c"] true)%string.
Proof.
  apply (get_unique_key_order_independent
           (FilterElement.mkFilterElement ["b"; "a"] ["c"] true)%string
           (FilterElement.mkFilterElement ["a"; "b"] ["c"] true)%string).
  - simpl. apply perm_swap.
  - reflexivity.
  - reflexivity.
Defined.

Lemma extract_members_spec_witness :
  map (fun n => ("foo/" +:+ n)%string) (ZipSource._extract_members ["foo/"; "foo/a"; "bar/b"]%string "foo") =
    List.filter (fun n => String.prefix "foo/" n && negb (String.eqb n "foo/"))
      ["foo/"; "foo/a"; "bar/b"]%string /\
  ZipSource._extract_members ["foo/"; "foo/a"; "bar/b"]%string "foo" = ["a"]%string.
Proof.
  split; [|reflexivity].
  exact (proj1 (extract_members_spec ["foo/"; "foo/a"; "bar/b"]%string "foo")).
Defined.

Lemma list_archive_paths_spec_witness :
  ZipSource._list_archive_paths demo_zip_names false = ["a"; "a/b"; "a/"; "x"]%string /\
  ZipSource._list_archive_paths demo_zip_names true = ZipSource._list_archive_paths demo_zip_names false.
Proof.
  split; [reflexivity|].
  exact (proj1 (list_archive_paths_spec demo_zip_names)).
Defined.
